(** * simplefin-bridge-exporter: credential resolution and metric export

    A shallow embedding of [cmd/main.go], [pkg/exporter] and [pkg/config].
    Go packages become modules, package-level variables become fields of an
    explicit program state, [log.Fatal] becomes an exit outcome, and every
    call that leaves the process (Kubernetes API, file system, HTTP, the
    SimpleFin client constructor, the metrics listener) is recorded in a
    trace so that statements such as "no store write is attempted" can be
    phrased over it. *)

From Stdlib Require Import QArith.
From stdpp Require Import gmap strings list pretty.

Open Scope string_scope.
Open Scope list_scope.
Open Scope Z_scope.

(** ** Go values *)

(** A Go [error] is represented by its message; [nil] is [None]. *)
Definition error := string.

(** [fmt.Errorf(prefix + "%v", err)]. *)
Definition Errorf (pre : string) (err : error) : error := pre +:+ err.

(** Go's [==] on strings. *)
Definition streq (a b : string) : bool := String.eqb a b.

(** [strings.HasPrefix(s, p)]. *)
Definition HasPrefix (s p : string) : bool := String.prefix p s.

(** [strings.Join]. *)
Definition Join (l : list string) (sep : string) : string := String.concat sep l.

(** ** Library functions the program calls

    Their results are all the program looks at, so they are taken as an
    interface: the development holds for any implementation of it. *)

Class GoLib := {
  (** [float64] values as stored in a gauge *)
  float64 : Type;
  (** [strconv.ParseFloat(s, bitSize)] *)
  ParseFloat : string → Z → float64 * option error;
  (** the conversion [float64(n)] of an [int64] *)
  float64_of_int64 : Z → float64;
  (** [base64.StdEncoding.DecodeString] *)
  base64_DecodeString : string → string * option error;
  (** [url.Parse(s)] followed, on success, by the [String] method of the
      parsed URL *)
  url_Parse_String : string → string * option error;
  (** [time.ParseDuration], in nanoseconds *)
  ParseDuration : string → Z * option error;
  (** [time.Duration.String] *)
  Duration_String : Z → string;
  (** [json.Unmarshal] into an [AccountMappingConfig]:
      the [mappings] and [ignore_list] fields *)
  json_Unmarshal : string → (list (string * string) * list string) * option error;
}.

(** The client of package [simplefin]: its constructor, and the result of
    the n-th [GetAccounts] call on a client. *)
Class SimplefinPkg (Accounts : Type) := {
  SimplefinClient : Type;
  NewSimplefinClient : string → option SimplefinClient * option error;
  GetAccounts : SimplefinClient → nat → Accounts * option error;
}.

(** ** Package [simplefin] (types as used by the exporter) *)

Module simplefin.

Record Organization := { Domain : string }.

Record Account := {
  Org : Organization;
  ID : string;
  Name : string;
  Currency : string;
  Balance : string;
  AvailableBalance : string;
  BalanceDate : Z;
}.

Record Accounts := { Accounts_ : list Account }.

End simplefin.

(** ** Log records (zerolog events) *)

Inductive Level := DebugLevel | InfoLevel | WarnLevel | ErrorLevel | FatalLevel.

Record LogEntry := mkLog {
  level : Level;
  (** the error attached with [.Err(err)], if any *)
  log_err : option error;
  log_msg : string;
}.

#[global] Instance Level_eq_dec : EqDecision Level.
Proof. solve_decision. Defined.

Definition is_error_entry (l : LogEntry) : bool :=
  match level l with ErrorLevel => true | _ => false end.

(** ** The world outside the process *)

(** Errors of the [os] package: a [*PathError] with its operation, path
    and cause. *)
Inductive Errno := ENOENT | EACCES.

Record PathError := { Op : string; Path : string; Err : Errno }.

Definition Errno_Error (e : Errno) : string :=
  match e with
  | ENOENT => "no such file or directory"
  | EACCES => "permission denied"
  end.

Definition PathError_Error (e : PathError) : error :=
  Op e +:+ " " +:+ Path e +:+ ": " +:+ Errno_Error (Err e).

(** [os.IsNotExist]. *)
Definition IsNotExist (e : PathError) : bool :=
  match Err e with ENOENT => true | _ => false end.

(** A file: its bytes, whether the process may read it, and whether it
    may unlink it. *)
Record File := { content : string; readable : bool; removable : bool }.

(** A Kubernetes secret object: its name and its [Data] map, which may be
    [nil]. *)
Record Secret := { SecretName : string; Data : option (gmap string string) }.

(** What [http.DefaultClient.Do] gives back: a transport error, or a
    response with its status code and the result of reading its body. *)
Inductive DoResult :=
| DoError (err : error)
| DoResponse (StatusCode : Z) (Body : string * option error).

(** The parts of the world the process cannot change. *)
Record Env := {
  (** [rest.InClusterConfig] and [kubernetes.NewForConfig] *)
  in_cluster_config : option error;
  new_for_config : option error;
  (** failures of the API server on [Get] and on [Update] *)
  secret_get_fault : option error;
  secret_update_fault : option error;
  (** [http.NewRequest] on a URL, and the answer to a POST on it *)
  new_request : string → option error;
  http_post : string → DoResult;
  (** [time.Since(before).String()] in the n-th poll *)
  took : nat → string;
}.

(** Calls that leave the process, and log records. *)
Inductive Event :=
| EvLog (l : LogEntry)
| EvSecretGet (ns name : string)
| EvSecretUpdate (ns : string) (s : Secret)
| EvReadFile (path : string)
| EvRemove (path : string)
| EvHttpPost (url : string)
| EvNewSimplefinClient (accessUrl : string)
| EvListenAndServe (addr : string)
| EvGetAccounts
| EvPrint (accounts : simplefin.Accounts)
| EvSleep (d : Z).

Record World := mkWorld {
  env : Env;
  (** the [Data] of the secrets the API server holds, by (namespace, name) *)
  secrets : gmap (string * string) (option (gmap string string));
  files : gmap string File;
  trace : list Event;
}.

(** The world as a fresh process finds it. *)
Definition boot (w : World) : World :=
  {| env := env w; secrets := secrets w; files := files w; trace := [] |}.

(** *** Calls on the world, in state-passing style *)

Definition IO (A : Type) : Type := World → A * World.

Definition io_ret {A} (a : A) : IO A := λ w, (a, w).

Definition io_bind {A B} (c : IO A) (k : A → IO B) : IO B :=
  λ w, let '(a, w1) := c w in k a w1.

#[global] Instance IO_ret : MRet IO := @io_ret.
#[global] Instance IO_bind : MBind IO := λ A B k c, io_bind c k.

Definition emit (e : Event) : IO unit := λ w,
  (tt, {| env := env w; secrets := secrets w; files := files w;
          trace := trace w ++ [e] |}).

Definition dquote : string := String (Ascii.ascii_of_nat 34) "".

Module os.

(** [os.ReadFile]. *)
Definition ReadFile (name : string) : IO (string * option PathError) :=
  emit (EvReadFile name) ;;
  ((λ w, match files w !! name with
        | None => (("", Some {| Op := "open"; Path := name; Err := ENOENT |}), w)
        | Some f =>
            if readable f then ((content f, None), w)
            else (("", Some {| Op := "open"; Path := name; Err := EACCES |}), w)
        end) : IO (string * option PathError)).

(** [os.Remove]. *)
Definition Remove (name : string) : IO (option PathError) :=
  emit (EvRemove name) ;;
  ((λ w, match files w !! name with
        | None => (Some {| Op := "remove"; Path := name; Err := ENOENT |}, w)
        | Some f =>
            if removable f then
              (None, {| env := env w; secrets := secrets w;
                        files := delete name (files w); trace := trace w |})
            else (Some {| Op := "remove"; Path := name; Err := EACCES |}, w)
        end) : IO (option PathError)).

End os.

Module k8s.

Definition not_found (name : string) : error :=
  "secrets " +:+ dquote +:+ name +:+ dquote +:+ " not found".

(** [CoreV1().Secrets(ns).Get(ctx, name, ..)]. *)
Definition Get (ns name : string) : IO (option Secret * option error) :=
  emit (EvSecretGet ns name) ;;
  ((λ w, match secret_get_fault (env w) with
        | Some err => ((None, Some err), w)
        | None =>
            match secrets w !! (ns, name) with
            | Some d => ((Some {| SecretName := name; Data := d |}, None), w)
            | None => ((None, Some (not_found name)), w)
            end
        end) : IO (option Secret * option error)).

(** [CoreV1().Secrets(ns).Update(ctx, secret, ..)]: replaces the stored
    object of the same name. *)
Definition Update (ns : string) (s : Secret) : IO (option Secret * option error) :=
  emit (EvSecretUpdate ns s) ;;
  ((λ w, match secret_update_fault (env w) with
        | Some err => ((None, Some err), w)
        | None =>
            match secrets w !! (ns, SecretName s) with
            | Some _ =>
                ((Some s, None),
                 {| env := env w;
                    secrets := <[(ns, SecretName s) := Data s]> (secrets w);
                    files := files w; trace := trace w |})
            | None => ((None, Some (not_found (SecretName s))), w)
            end
        end) : IO (option Secret * option error)).

End k8s.

(** ** Package [config] *)

Module config.

Section AccessURLFile.
Context `{GoLib}.

Definition ReadAndDeleteAccessURLFile (filepath : string)
  : IO (string * option error) :=
  ('(data, err) ← os.ReadFile filepath;
   match err with
   | Some err =>
       io_ret ("", Some (Errorf "error reading AccessUrl path: " (PathError_Error err)))
   | None =>
       match url_Parse_String data with
       | (_, Some err) => io_ret ("", Some (Errorf "error parsing AccessUrl: " err))
       | (parsedUrl, None) =>
           err ← os.Remove filepath;
           match err with
           | Some err =>
               io_ret ("", Some (Errorf "error removing AccessUrl file: "
                                   (PathError_Error err)))
           | None => io_ret (parsedUrl, None)
           end
       end
   end).

End AccessURLFile.

Record AccountMapping := { AccountID : string; CustomName : string }.

Record AccountMappingConfig := {
  Mappings : list AccountMapping;
  IgnoreList : list string;
}.

Fixpoint lookup_mapping (ms : list AccountMapping) (accountID : string)
  : option string :=
  match ms with
  | [] => None
  | mapping :: rest =>
      if streq (AccountID mapping) accountID then Some (CustomName mapping)
      else lookup_mapping rest accountID
  end.

Definition GetAccountNameMapping (config : AccountMappingConfig)
    (accountID originalName : string) : string :=
  match lookup_mapping (Mappings config) accountID with
  | Some custom => custom
  | None => originalName
  end.

Fixpoint scan_ignored (l : list string) (accountID : string) : bool :=
  match l with
  | [] => false
  | ignoredID :: rest =>
      if streq ignoredID accountID then true else scan_ignored rest accountID
  end.

Definition IsAccountIgnored (config : AccountMappingConfig)
    (accountID : string) : bool :=
  scan_ignored (IgnoreList config) accountID.

Section Load.
Context `{GoLib}.

Definition empty_config : AccountMappingConfig :=
  {| Mappings := []; IgnoreList := [] |}.

(** The pointer result is [None] for [nil]. *)
Definition LoadAccountMappings (filepath : string)
  : IO (option AccountMappingConfig * option error) :=
  (if streq filepath "" then io_ret (Some empty_config, None)
   else
     '(data, err) ← os.ReadFile filepath;
     match err with
     | Some err =>
         if IsNotExist err then io_ret (Some empty_config, None)
         else io_ret (None, Some (Errorf "error reading account mappings file: "
                                    (PathError_Error err)))
     | None =>
         match json_Unmarshal data with
         | (_, Some err) =>
             io_ret (None, Some (Errorf "error parsing account mappings JSON: " err))
         | ((ms, ign), None) =>
             io_ret (Some {| Mappings :=
                               map (λ p, {| AccountID := p.1; CustomName := p.2 |}) ms;
                             IgnoreList := ign |}, None)
         end
     end).

End Load.

End config.

(** ** Package [exporter] *)

Module exporter.
Import simplefin config.

Section Exporter.
Context `{GoLib}.

(** Label values of a series, in the order the gauge vector declares
    them: [domain, account_name, account_id, currency] and
    [domain, account_name, account_id]. *)
Definition labels4 : Type := string * string * string * string.
Definition labels3 : Type := string * string * string.

(** A [GaugeVec] is the map from label values to the gauge's value;
    [WithLabelValues(..).Set(v)] is an insert. The label values are
    strings decoded from JSON, hence valid UTF-8, and their number is the
    declared one, so [WithLabelValues] does not panic. *)
Record Exporter := mkExporter {
  balances : gmap labels4 float64;
  availableBalances : gmap labels4 float64;
  last_updated : gmap labels3 float64;
  AccountMappings : AccountMappingConfig;
}.

Definition NewExporter (accountMappings : AccountMappingConfig) : Exporter :=
  {| balances := ∅; availableBalances := ∅; last_updated := ∅;
     AccountMappings := accountMappings |}.

Definition set_balance (e : Exporter) (k : labels4) (v : float64) : Exporter :=
  {| balances := <[k := v]> (balances e);
     availableBalances := availableBalances e;
     last_updated := last_updated e;
     AccountMappings := AccountMappings e |}.

Definition set_availableBalance (e : Exporter) (k : labels4) (v : float64)
  : Exporter :=
  {| balances := balances e;
     availableBalances := <[k := v]> (availableBalances e);
     last_updated := last_updated e;
     AccountMappings := AccountMappings e |}.

Definition set_last_updated (e : Exporter) (k : labels3) (v : float64)
  : Exporter :=
  {| balances := balances e;
     availableBalances := availableBalances e;
     last_updated := <[k := v]> (last_updated e);
     AccountMappings := AccountMappings e |}.

Definition msg_skip (accItem : Account) : string :=
  "Skipping ignored account: " +:+ Name accItem +:+ " (ID: " +:+ ID accItem +:+ ")".

Definition msg_parse (what : string) (accItem : Account) : string :=
  "Could not parse " +:+ what +:+ " from " +:+ Domain (Org accItem) +:+ " - "
    +:+ Name accItem +:+ " (ID: " +:+ ID accItem +:+ ")".

(** One iteration of the loop in [Export]: the exporter after it and
    the log records it wrote. *)
Definition export_account (e : Exporter) (accItem : Account)
  : Exporter * list LogEntry :=
  if IsAccountIgnored (AccountMappings e) (ID accItem) then
    (e, [mkLog DebugLevel None (msg_skip accItem)])
  else
    let accountName :=
      GetAccountNameMapping (AccountMappings e) (ID accItem) (Name accItem) in
    let k4 := (Domain (Org accItem), accountName, ID accItem, Currency accItem) in
    let k3 := (Domain (Org accItem), accountName, ID accItem) in
    let '(e1, l1) :=
      match ParseFloat (Balance accItem) 32 with
      | (_, Some err) => (e, [mkLog ErrorLevel (Some err) (msg_parse "balance" accItem)])
      | (bal, None) => (set_balance e k4 bal, [])
      end in
    let '(e2, l2) :=
      match ParseFloat (AvailableBalance accItem) 32 with
      | (_, Some err) =>
          (e1, [mkLog ErrorLevel (Some err) (msg_parse "available balance" accItem)])
      | (availBal, None) => (set_availableBalance e1 k4 availBal, [])
      end in
    (set_last_updated e2 k3 (float64_of_int64 (BalanceDate accItem)), l1 ++ l2).

Fixpoint export_loop (e : Exporter) (accs : list Account)
  : Exporter * list LogEntry :=
  match accs with
  | [] => (e, [])
  | accItem :: rest =>
      let '(e1, l1) := export_account e accItem in
      let '(e2, l2) := export_loop e1 rest in
      (e2, l1 ++ l2)
  end.

(** [Export]: the exporter afterwards, the log records written, and
    the returned [error]. *)
Definition Export (e : Exporter) (accounts : Accounts)
  : Exporter * list LogEntry * option error :=
  let '(e', l) := export_loop e (Accounts_ accounts) in
  (e', l, None).

End Exporter.
End exporter.


(** ** Package [main] *)

Module main.
Import simplefin config exporter.

(** The command line as [flag.Parse] reads it. The variables it fills
    and nothing changes afterwards keep their names; [accessUrl_flag] is
    the value of [-accessUrl] and [duration] that of [-updateInterval]. *)
Record Flags := {
  os_Args : list string;
  setupToken : string;
  accessUrl_flag : string;
  accessUrlVolatileFile : string;
  secretName : string;
  secretNamespace : string;
  accountMappingsFile : string;
  debug : bool;
  bindAddress : string;
  httpPort : Z;
  duration : string;
}.

Inductive outcome (A : Type) :=
| Return (a : A)
| Exit (code : Z)
| Panic (msg : string).
  Arguments Return {A} a.
  Arguments Exit {A} code.
  Arguments Panic {A} msg.

Section Main.
Context `{GoLib} `{SimplefinPkg Accounts}.

(** The package-level variables the program assigns, and the world. *)
Record State := mkState {
  accessUrl : string;
  updateInterval : Z;
  k8sClient : bool;
  client : option SimplefinClient;
  accountMappings : option AccountMappingConfig;
  world : World;
}.

Definition start (w : World) : State :=
  {| accessUrl := ""; updateInterval := 0; k8sClient := false;
     client := None; accountMappings := None; world := boot w |}.

Definition M (A : Type) : Type := State → outcome A * State.

Definition m_ret {A} (a : A) : M A := λ st, (Return a, st).

Definition m_bind {A B} (c : M A) (k : A → M B) : M B :=
  λ st, match c st with
        | (Return a, st1) => k a st1
        | (Exit code, st1) => (Exit code, st1)
        | (Panic msg, st1) => (Panic msg, st1)
        end.

#[global] Instance M_ret : MRet M := @m_ret.
#[global] Instance M_bind : MBind M := λ A B k c, m_bind c k.

Definition lift {A} (c : IO A) : M A := λ st,
  let '(a, w) := c (world st) in
  (Return a,
   {| accessUrl := accessUrl st; updateInterval := updateInterval st;
      k8sClient := k8sClient st; client := client st;
      accountMappings := accountMappings st; world := w |}).

Definition gets {A} (f : State → A) : M A := λ st, (Return (f st), st).

Definition set_accessUrl (v : string) : M unit := λ st,
  (Return tt,
   {| accessUrl := v; updateInterval := updateInterval st;
      k8sClient := k8sClient st; client := client st;
      accountMappings := accountMappings st; world := world st |}).

Definition set_updateInterval (v : Z) : M unit := λ st,
  (Return tt,
   {| accessUrl := accessUrl st; updateInterval := v;
      k8sClient := k8sClient st; client := client st;
      accountMappings := accountMappings st; world := world st |}).

Definition set_k8sClient (v : bool) : M unit := λ st,
  (Return tt,
   {| accessUrl := accessUrl st; updateInterval := updateInterval st;
      k8sClient := v; client := client st;
      accountMappings := accountMappings st; world := world st |}).

Definition set_client (v : option SimplefinClient) : M unit := λ st,
  (Return tt,
   {| accessUrl := accessUrl st; updateInterval := updateInterval st;
      k8sClient := k8sClient st; client := v;
      accountMappings := accountMappings st; world := world st |}).

Definition set_accountMappings (v : option AccountMappingConfig) : M unit :=
  λ st,
  (Return tt,
   {| accessUrl := accessUrl st; updateInterval := updateInterval st;
      k8sClient := k8sClient st; client := client st;
      accountMappings := v; world := world st |}).

Definition panic {A} (msg : string) : M A := λ st, (Panic msg, st).

Definition nil_deref : string :=
  "invalid memory address or nil pointer dereference".

(** [log.<Level>().Err(err).Msg(msg)] below [Fatal]. *)
Definition log_ (l : Level) (err : option error) (msg : string) : M unit :=
  lift (emit (EvLog (mkLog l err msg))).

(** [log.Fatal()...Msg(msg)]: the record is written, then [os.Exit(1)]. *)
Definition Fatal {A} (err : option error) (msg : string) : M A :=
  λ st, match log_ FatalLevel err msg st with
        | (_, st1) => (Exit 1, st1)
        end.

Definition when (b : bool) (c : M unit) : M unit :=
  if b then c else mret tt.

Definition nonempty (s : string) : bool := negb (streq s "").

Section Program.
Variable fl : Flags.

Definition store_configured : bool :=
  nonempty (secretName fl) && nonempty (secretNamespace fl).

Definition initKubernetesClient : M (option error) :=
  e ← gets (λ st, env (world st));
  match in_cluster_config e with
  | Some err => mret (Some (Errorf "failed to create in-cluster config: " err))
  | None =>
      match new_for_config e with
      | Some err => mret (Some (Errorf "failed to create kubernetes client: " err))
      | None => set_k8sClient true ;; mret None
      end
  end.

(** A call through [k8sClient]; it panics on the nil interface. *)
Definition with_k8sClient {A} (c : IO A) : M A :=
  ok ← gets k8sClient;
  if ok : bool then lift c else panic nil_deref.

Definition getAccessUrlFromSecret : M (string * option error) :=
  if streq (secretName fl) "" || streq (secretNamespace fl) "" then
    mret ("", None)
  else
    '(secret, err) ← with_k8sClient (k8s.Get (secretNamespace fl) (secretName fl));
    match err, secret with
    | Some err, _ =>
        log_ WarnLevel (Some err) "failed to get secret, will try setup token" ;;
        mret ("", None)
    | None, None => panic nil_deref
    | None, Some secret =>
        match default ∅ (Data secret) !! "access_url" with
        | Some accessUrlStr =>
            if HasPrefix accessUrlStr "http://" || HasPrefix accessUrlStr "https://"
            then
              log_ InfoLevel None "found valid access URL in secret" ;;
              mret (accessUrlStr, None)
            else
              log_ WarnLevel None ("invalid access URL in secret: " +:+ accessUrlStr) ;;
              mret ("", None)
        | None => mret ("", None)
        end
    end.

Definition saveAccessUrlToSecret (accessUrl : string) : M (option error) :=
  if streq (secretName fl) "" || streq (secretNamespace fl) "" then
    log_ WarnLevel None "secret name or namespace not provided, cannot save access URL" ;;
    mret None
  else
    '(secret, err) ← with_k8sClient (k8s.Get (secretNamespace fl) (secretName fl));
    match err, secret with
    | Some err, _ => mret (Some (Errorf "failed to get secret for update: " err))
    | None, None => panic nil_deref
    | None, Some secret =>
        let data := default ∅ (Data secret) in
        let secret :=
          {| SecretName := SecretName secret;
             Data := Some (<["access_url" := accessUrl]> data) |} in
        '(_, err) ← with_k8sClient (k8s.Update (secretNamespace fl) secret);
        match err with
        | Some err =>
            mret (Some (Errorf "failed to update secret with access URL: " err))
        | None =>
            log_ InfoLevel None "successfully saved access URL to secret" ;;
            mret None
        end
    end.

(** [http.DefaultClient.Do] on a POST request without body. *)
Definition http_Do (url : string) : IO DoResult :=
  emit (EvHttpPost url) ;; ((λ w, (http_post (env w) url, w)) : IO DoResult).

Definition createClientAndGetAccessUrl (setupToken : string)
  : M (string * option error) :=
  match base64_DecodeString setupToken with
  | (_, Some err) => mret ("", Some (Errorf "error decoding base64 setupToken: " err))
  | (claimUrl, None) =>
      e ← gets (λ st, env (world st));
      match new_request e claimUrl with
      | Some err => mret ("", Some (Errorf "error creating request: " err))
      | None =>
          resp ← lift (http_Do claimUrl);
          match resp with
          | DoError err => mret ("", Some (Errorf "error requesting access url: " err))
          | DoResponse StatusCode (_, Some err) =>
              mret ("", Some (Errorf "error getting access url: " err))
          | DoResponse StatusCode (accessUrlBytes, None) =>
              if negb (StatusCode =? 200) then
                mret ("", Some ("setup token claim failed with status "
                                  +:+ pretty StatusCode +:+ ": " +:+ accessUrlBytes))
              else mret (accessUrlBytes, None)
          end
      end
  end.

(** [simplefin.NewSimplefinClient], recorded in the trace. *)
Definition newClient (accessUrl : string)
  : M (option SimplefinClient * option error) :=
  lift (emit (EvNewSimplefinClient accessUrl)) ;;
  mret (NewSimplefinClient accessUrl).

(** [parseConfig], in the order of its source: the flags and the
    debug banner, the secret, the volatile file, and from the check
    that a credential source exists to the end. *)

Definition parse_flags : M unit :=
  (* flag.Parse() *)
  set_accessUrl (accessUrl_flag fl) ;;
  when (debug fl)
    (log_ DebugLevel None
       ("starting, args: `" +:+ Join (tail (os_Args fl)) " " +:+ "`")).

Definition read_secret : M unit :=
  (* Initialize Kubernetes client if we have secret info *)
  when (nonempty (secretName fl) && nonempty (secretNamespace fl))
    (err ← initKubernetesClient;
     match err with
     | Some err => Fatal (Some err) "failed to initialize kubernetes client"
     | None => mret tt
     end ;;
     (* Try to get access URL from secret first *)
     '(storedAccessUrl, err) ← getAccessUrlFromSecret;
     match err with
     | Some err => log_ WarnLevel (Some err) "failed to get access URL from secret"
     | None =>
         when (nonempty storedAccessUrl)
           (set_accessUrl storedAccessUrl ;;
            log_ InfoLevel None "using access URL from secret")
     end).

Definition read_volatile_file : M unit :=
  when (nonempty (accessUrlVolatileFile fl))
    ('(u, err) ← lift (ReadAndDeleteAccessURLFile (accessUrlVolatileFile fl));
     set_accessUrl u ;;
     match err with
     | Some err => Fatal (Some err) "failed to read AccessUrl config"
     | None => mret tt
     end).

Definition make_client : M unit :=
  a ← gets accessUrl;
  when (streq a "" && streq (setupToken fl) "")
    (Fatal None "Access URL or Setup Token required") ;;
  when (nonempty a && nonempty (setupToken fl))
    (log_ WarnLevel None "access URL and setup token provided, ignoring setup token.") ;;
  match ParseDuration (duration fl) with
  | (_, Some err) => Fatal (Some err) "error parsing duration"
  | (updIval, None) => set_updateInterval updIval
  end ;;
  '(c, err) ←
    (if nonempty a then newClient a
     else
       (* Use setup token to get access URL *)
       '(newAccessUrl, clientErr) ← createClientAndGetAccessUrl (setupToken fl);
       match clientErr with
       | Some clientErr =>
           Fatal (Some clientErr) "failed to create client from setup token"
       | None => mret tt
       end ;;
       (* Save the access URL to secret for future use *)
       when (nonempty (secretName fl) && nonempty (secretNamespace fl))
         (saveErr ← saveAccessUrlToSecret newAccessUrl;
          match saveErr with
          | Some saveErr =>
              log_ WarnLevel (Some saveErr) "failed to save access URL to secret"
          | None => log_ InfoLevel None "successfully saved new access URL to secret"
          end) ;;
       (* Now create the client with the access URL *)
       newClient newAccessUrl);
  set_client c ;;
  match err with
  | Some err => Fatal (Some err) "failed to initialize simplefin client"
  | None => mret tt
  end.

Definition load_mappings : M unit :=
  (* Load account mappings *)
  '(am, err) ← lift (LoadAccountMappings (accountMappingsFile fl));
  set_accountMappings am ;;
  match err with
  | Some err => Fatal (Some err) "failed to load account mappings"
  | None => mret tt
  end ;;
  match am with
  | None => panic nil_deref
  | Some am =>
      when (bool_decide (0 < length (Mappings am))%nat)
        (log_ InfoLevel None
           ("loaded " +:+ pretty (length (Mappings am)) +:+ " account mappings"))
  end.

Definition parseConfig : M unit :=
  parse_flags ;;
  read_secret ;;
  read_volatile_file ;;
  make_client ;;
  load_mappings.

(** The listener runs on its own; its start is what is recorded. *)
Definition startExporterServer (e : Exporter) : M unit :=
  lift (emit (EvListenAndServe (":" +:+ pretty (httpPort fl)))).

(** [n] rounds of the polling loop of [main], the [i]-th being next. *)
Fixpoint poll (n : nat) (i : nat) (exporter : Exporter) : M unit :=
  match n with
  | O => mret tt
  | S n' =>
      log_ InfoLevel None "polling account data" ;;
      c ← gets client;
      match c with
      | None => panic nil_deref
      | Some c =>
          lift (emit EvGetAccounts) ;;
          exporter' ←
            match GetAccounts c i with
            | (_, Some err) =>
                log_ ErrorLevel (Some err) "failed to fetch accounts" ;;
                mret exporter
            | (accounts, None) =>
                when (debug fl) (lift (emit (EvPrint accounts))) ;;
                let '(exporter', logs, _) := Export exporter accounts in
                lift (λ w, (tt, {| env := env w; secrets := secrets w;
                                   files := files w;
                                   trace := trace w ++ map EvLog logs |})) ;;
                mret exporter'
            end;
          e ← gets (λ st, env (world st));
          log_ InfoLevel None ("done, took " +:+ took e i) ;;
          d ← gets updateInterval;
          lift (emit (EvSleep d)) ;;
          poll n' (S i) exporter'
      end
  end.

(** [main], with the endless loop cut after [n] rounds. *)
Definition main (n : nat) : M unit :=
  parseConfig ;;
  am ← gets accountMappings;
  match am with
  | None => panic nil_deref
  | Some am =>
      let exporter := NewExporter am in
      startExporterServer exporter ;;
      d ← gets updateInterval;
      log_ InfoLevel None ("update interval: " +:+ Duration_String d) ;;
      poll n 0 exporter
  end.

End Program.
End Main.
End main.

(** * Vocabulary of the statements

    Nothing here is part of the program: these are the projections,
    predicates and reached states the lemmas and theorems are phrased
    with. *)

(** ** Overwriting writes on a map *)

Section WriteSteps.
Context `{Countable K} {V X : Type}.
Variable f : X → option (K * V).

(** Apply the write of [x], if it has one. *)
Definition write_step (m : gmap K V) (x : X) : gmap K V :=
  match f x with
  | Some (k, v) => <[k := v]> m
  | None => m
  end.

(** The value the last write to [k] in [l] leaves, if there is one. *)
Fixpoint last_write (k : K) (l : list X) : option V :=
  match l with
  | [] => None
  | x :: l' =>
      match last_write k l' with
      | Some v => Some v
      | None =>
          match f x with
          | Some (k', v) => if decide (k' = k) then Some v else None
          | None => None
          end
      end
  end.

End WriteSteps.

(** ** The writes of the exporter *)

Section ExporterVocabulary.
Import simplefin config exporter.
Context `{GoLib}.

Definition key4 (am : AccountMappingConfig) (a : Account) : labels4 :=
  (Domain (Org a), GetAccountNameMapping am (ID a) (Name a), ID a, Currency a).

Definition key3 (am : AccountMappingConfig) (a : Account) : labels3 :=
  (Domain (Org a), GetAccountNameMapping am (ID a) (Name a), ID a).

(** The write, if any, that one record causes in each gauge family. *)
Definition balance_write (am : AccountMappingConfig) (a : Account)
  : option (labels4 * float64) :=
  if IsAccountIgnored am (ID a) then None
  else match ParseFloat (Balance a) 32 with
       | (_, Some _) => None
       | (bal, None) => Some (key4 am a, bal)
       end.

Definition available_write (am : AccountMappingConfig) (a : Account)
  : option (labels4 * float64) :=
  if IsAccountIgnored am (ID a) then None
  else match ParseFloat (AvailableBalance a) 32 with
       | (_, Some _) => None
       | (availBal, None) => Some (key4 am a, availBal)
       end.

Definition updated_write (am : AccountMappingConfig) (a : Account)
  : option (labels3 * float64) :=
  if IsAccountIgnored am (ID a) then None
  else Some (key3 am a, float64_of_int64 (BalanceDate a)).

(** The exporter after the successive polls of [main] have exported
    the snapshots [snaps], in order. *)
Definition export_polls (e : Exporter) (snaps : list Accounts) : Exporter :=
  foldl (λ e accounts, (Export e accounts).1.1) e snaps.

Definition count_errors (logs : list LogEntry) : nat :=
  length (List.filter is_error_entry logs).

Definition not_ignored (am : AccountMappingConfig) (a : Account) : bool :=
  negb (IsAccountIgnored am (ID a)).

End ExporterVocabulary.

(** ** Events and what a run can change

    Every computation only appends to the trace; the secrets change only
    in a run that records an [EvSecretUpdate], and the files only in one
    that records an [EvRemove]. [ok] is the set of events a computation
    is allowed to record. *)

Definition is_update (e : Event) : bool :=
  match e with EvSecretUpdate _ _ => true | _ => false end.

Definition is_remove (e : Event) : bool :=
  match e with EvRemove _ => true | _ => false end.

Definition is_listen (e : Event) : bool :=
  match e with EvListenAndServe _ => true | _ => false end.

Definition is_file_op (e : Event) : bool :=
  match e with EvReadFile _ | EvRemove _ => true | _ => false end.

Definition is_log (e : Event) : bool :=
  match e with EvLog _ => true | _ => false end.

Definition is_secret_get (e : Event) : bool :=
  match e with EvSecretGet _ _ => true | _ => false end.

Definition is_new_client (e : Event) : bool :=
  match e with EvNewSimplefinClient _ => true | _ => false end.

Definition is_http_post (e : Event) : bool :=
  match e with EvHttpPost _ => true | _ => false end.

Section Steps.
Variable ok : Event → bool.

Definition wstep (w w' : World) : Prop :=
  env w' = env w ∧
  ∃ evs, trace w' = trace w ++ evs ∧
         forallb ok evs = true ∧
         (existsb is_update evs = false → secrets w' = secrets w) ∧
         (existsb is_remove evs = false → files w' = files w).

Definition io_keeps {A} (c : IO A) : Prop := ∀ w, wstep w (c w).2.

Section WithState.
Context `{GoLib} `{SimplefinPkg simplefin.Accounts}.
Import main.

Definition sstep (st st' : State) : Prop :=
  wstep (world st) (world st') ∧ (k8sClient st = true → k8sClient st' = true).

Definition keeps {A} (c : M A) : Prop := ∀ st, sstep st (c st).2.

End WithState.
End Steps.

Definition ok_secret_read (e : Event) : bool := is_log e || is_secret_get e.
Definition ok_file (e : Event) : bool := is_log e || is_file_op e.
Definition ok_client (e : Event) : bool := negb (is_file_op e || is_listen e).
Definition ok_load (e : Event) : bool :=
  match e with EvLog _ | EvReadFile _ => true | _ => false end.

(** ** States reached and conditions on the world *)

Section ResolutionVocabulary.
Context `{GoLib} `{SimplefinPkg simplefin.Accounts}.
Import main config.

(** The three credential sources that precede the setup token, in the
    order [parseConfig] runs them. *)
Definition sources (fl : Flags) : M unit :=
  parse_flags fl ;; read_secret fl ;; read_volatile_file fl.

Definition fatal_entry (err : option error) (msg : string) : Event :=
  EvLog (mkLog FatalLevel err msg).

Definition emitted (st : State) (evs : list Event) : State :=
  {| accessUrl := accessUrl st; updateInterval := updateInterval st;
     k8sClient := k8sClient st; client := client st;
     accountMappings := accountMappings st;
     world := {| env := env (world st); secrets := secrets (world st);
                 files := files (world st);
                 trace := trace (world st) ++ evs |} |}.

Definition with_accessUrl (st : State) (v : string) : State :=
  {| accessUrl := v; updateInterval := updateInterval st;
     k8sClient := k8sClient st; client := client st;
     accountMappings := accountMappings st; world := world st |}.

Definition with_k8sClient_set (st : State) : State :=
  {| accessUrl := accessUrl st; updateInterval := updateInterval st;
     k8sClient := true; client := client st;
     accountMappings := accountMappings st; world := world st |}.

Definition banner (fl : Flags) : list Event :=
  if debug fl then
    [EvLog (mkLog DebugLevel None
              ("starting, args: `" +:+ Join (tail (os_Args fl)) " " +:+ "`"))]
  else [].

(** The ways in which the secret gives no access URL: the call fails, the
    secret does not exist, it has no [access_url], or the field does not
    start with a URL scheme. *)
Inductive unusable_secret (fl : Flags) (w : World) : Prop :=
| get_fails err :
    secret_get_fault (env w) = Some err → unusable_secret fl w
| secret_missing :
    secret_get_fault (env w) = None →
    secrets w !! (secretNamespace fl, secretName fl) = None →
    unusable_secret fl w
| field_missing data :
    secret_get_fault (env w) = None →
    secrets w !! (secretNamespace fl, secretName fl) = Some data →
    default ∅ data !! "access_url" = None →
    unusable_secret fl w
| field_invalid data v :
    secret_get_fault (env w) = None →
    secrets w !! (secretNamespace fl, secretName fl) = Some data →
    default ∅ data !! "access_url" = Some v →
    HasPrefix v "http://" = false → HasPrefix v "https://" = false →
    unusable_secret fl w.

(** The ways in which consuming the file fails: it does not exist, it
    cannot be read, its content is not a URL, or it cannot be removed. *)
Inductive file_step_fails (p : string) (w : World) : Prop :=
| file_absent :
    files w !! p = None → file_step_fails p w
| file_unreadable f :
    files w !! p = Some f → readable f = false → file_step_fails p w
| url_unparsable f u err :
    files w !! p = Some f → readable f = true →
    url_Parse_String (content f) = (u, Some err) → file_step_fails p w
| file_undeletable f v :
    files w !! p = Some f → readable f = true →
    url_Parse_String (content f) = (v, None) → removable f = false →
    file_step_fails p w.

Definition not_exist (op p : string) : error :=
  PathError_Error {| Op := op; Path := p; Err := ENOENT |}.



Definition with_updateInterval (st : State) (d : Z) : State :=
  {| accessUrl := accessUrl st; updateInterval := d;
     k8sClient := k8sClient st; client := client st;
     accountMappings := accountMappings st; world := world st |}.

Definition with_secrets (st : State)
    (sec : gmap (string * string) (option (gmap string string))) : State :=
  {| accessUrl := accessUrl st; updateInterval := updateInterval st;
   k8sClient := k8sClient st; client := client st;
   accountMappings := accountMappings st;
   world := {| env := env (world st); secrets := sec;
               files := files (world st); trace := trace (world st) |} |}.


(** The secrets after [saveAccessUrlToSecret]: the field is written when
    the secret can be read and the update is accepted, and nothing changes
    otherwise. *)
Definition saved_secrets (fl : Flags) (w : World) (accessUrl : string)
  : gmap (string * string) (option (gmap string string)) :=
  match secret_get_fault (env w), secret_update_fault (env w),
        secrets w !! (secretNamespace fl, secretName fl) with
  | None, None, Some data =>
      <[(secretNamespace fl, secretName fl) :=
          Some (<["access_url" := accessUrl]> (default ∅ data))]> (secrets w)
  | _, _, _ => secrets w
  end.

Definition ok_save (e : Event) : bool := is_log e || is_secret_get e || is_update e.




(** *** Two statements of the specification, as it words them *)



End ResolutionVocabulary.

(** ** Further vocabulary: the mapping file, the token exchange, the loop *)

Definition is_get_accounts (e : Event) : bool :=
  match e with EvGetAccounts => true | _ => false end.

Definition is_sleep (e : Event) : bool :=
  match e with EvSleep _ => true | _ => false end.

(** What a round of the polling loop may record. *)
Definition ok_poll (e : Event) : bool :=
  match e with
  | EvLog _ | EvGetAccounts | EvPrint _ | EvSleep _ => true
  | _ => false
  end.

(** What can be recorded before the listener is started. *)
Definition ok_before_serving (e : Event) : bool :=
  negb (is_listen e || is_get_accounts e || is_sleep e).

(** No call on the Kubernetes API. *)
Definition ok_no_store (e : Event) : bool := negb (is_secret_get e || is_update e).

Definition ignoring_token : Event :=
  EvLog (mkLog WarnLevel None
           "access URL and setup token provided, ignoring setup token.").

Section FurtherVocabulary.
Context `{GoLib} `{SimplefinPkg simplefin.Accounts}.
Import main config.

(** The content of the file is not the JSON of a mapping policy. *)
Definition json_fails (f : File) : Prop := (json_Unmarshal (content f)).2 ≠ None.

(** The interval is the parsed flag and the client is one that
    [NewSimplefinClient] returned without error. *)
Definition client_ready (fl : Flags) (st : State) : Prop :=
  ∃ d u c, ParseDuration (duration fl) = (d, None) ∧ updateInterval st = d ∧
           NewSimplefinClient u = (c, None) ∧ client st = c.

Definition claim_fatal (err : error) : Event :=
  fatal_entry (Some err) "failed to create client from setup token".


End FurtherVocabulary.

(** ** A small implementation of the library interface

    Used for the worked examples only; no theorem above depends on it.
    Gauge values are exact rationals, numbers are plain decimals, base64
    is the standard alphabet with padding, and a URL is any text without
    control characters. *)

Module sample.
Import Stdlib.Strings.Ascii.

Definition is_digit (c : ascii) : bool :=
  let n := N_of_ascii c in ((48 <=? n) && (n <=? 57))%N.

Fixpoint digits (s : string) (acc : Z) : option Z :=
  match s with
  | "" => Some acc
  | String c s' =>
      if is_digit c then digits s' (10 * acc + Z.of_N (N_of_ascii c) - 48)
      else None
  end.

(** Splits at the first dot. *)
Fixpoint split_dot (s : string) : string * option string :=
  match s with
  | "" => ("", None)
  | String c s' =>
      if Ascii.eqb c "."%char then ("", Some s')
      else let '(a, b) := split_dot s' in (String c a, b)
  end.

Definition syntax_error (fn s : string) : error :=
  fn +:+ ": parsing " +:+ dquote +:+ s +:+ dquote +:+ ": invalid syntax".

Definition parse_decimal (s : string) : Q * option error :=
  let bad := (0%Q, Some (syntax_error "strconv.ParseFloat" s)) in
  let '(neg, body) :=
    match s with
    | String c s' => if Ascii.eqb c "-"%char then (true, s') else (false, s)
    | "" => (false, s)
    end in
  let '(ip, fp) := split_dot body in
  let fp := default "" fp in
  if (String.length ip + String.length fp =? 0)%nat then bad
  else
    match digits ip 0, digits fp 0 with
    | Some i, Some f =>
        let den := 10 ^ Z.of_nat (String.length fp) in
        let num := i * den + f in
        (Qred (Qmake (if neg then - num else num) (Z.to_pos den)), None)
    | _, _ => bad
    end.

Definition b64_val (c : ascii) : option N :=
  let n := N_of_ascii c in
  (if (65 <=? n) && (n <=? 90) then Some (n - 65)
   else if (97 <=? n) && (n <=? 122) then Some (n - 71)
   else if (48 <=? n) && (n <=? 57) then Some (n + 4)
   else if n =? 43 then Some 62
   else if n =? 47 then Some 63
   else None)%N.

Definition byte_of (n : N) : ascii := ascii_of_N (n mod 256).

Definition is_pad (c : ascii) : bool := Ascii.eqb c "="%char.

Fixpoint b64_decode (s : string) : option string :=
  match s with
  | "" => Some ""
  | String a (String b (String c (String d rest))) =>
      match b64_val a, b64_val b with
      | Some x, Some y =>
          let b1 := byte_of (x * 4 + y / 16) in
          if is_pad c then
            if is_pad d && String.eqb rest "" then Some (String b1 "") else None
          else
            match b64_val c with
            | Some z =>
                let b2 := byte_of (y * 16 + z / 4) in
                if is_pad d then
                  if String.eqb rest "" then Some (String b1 (String b2 "")) else None
                else
                  match b64_val d, b64_decode rest with
                  | Some u, Some r =>
                      Some (String b1 (String b2 (String (byte_of (z * 64 + u)) r)))
                  | _, _ => None
                  end
            | None => None
            end
      | _, _ => None
      end%N
  | _ => None
  end.

Fixpoint has_control (s : string) : bool :=
  match s with
  | "" => false
  | String c s' =>
      let n := N_of_ascii c in ((n <? 32) || (n =? 127))%N || has_control s'
  end.

Definition parse_duration (s : string) : Z * option error :=
  let bad := (0, Some ("time: invalid duration " +:+ dquote +:+ s +:+ dquote)) in
  match String.rev s with
  | String u r =>
      let unit :=
        if Ascii.eqb u "h"%char then Some 3600000000000
        else if Ascii.eqb u "m"%char then Some 60000000000
        else if Ascii.eqb u "s"%char then Some 1000000000
        else None in
      match unit, digits (String.rev r) 0 with
      | Some k, Some n => if String.eqb r "" then bad else (n * k, None)
      | _, _ => bad
      end
  | "" => bad
  end.

#[local] Instance lib : GoLib := {|
  float64 := Q;
  ParseFloat s _ := parse_decimal s;
  float64_of_int64 n := inject_Z n;
  base64_DecodeString s :=
    match b64_decode s with
    | Some d => (d, None)
    | None => ("", Some "illegal base64 data")
    end;
  url_Parse_String s :=
    if has_control s then ("", Some "net/url: invalid control character in URL")
    else (s, None);
  ParseDuration := parse_duration;
  Duration_String d := pretty (d / 1000000000) +:+ "s";
  json_Unmarshal s :=
    if String.eqb s "{}" then (([], []), None)
    else (([], []), Some "unexpected end of JSON input");
|}.

(** A client is its access URL; every poll returns an empty snapshot. *)
#[local] Instance client : SimplefinPkg simplefin.Accounts := {|
  SimplefinClient := string;
  NewSimplefinClient u := (Some u, None);
  GetAccounts _ _ := ({| simplefin.Accounts_ := [] |}, None);
|}.

End sample.

(** ** Concrete inputs for the worked examples *)

Module inputs.
Import simplefin config exporter main.
#[local] Existing Instance sample.lib.
#[local] Existing Instance sample.client.

(** The mapping file and snapshot of a small household. *)
Definition policy : AccountMappingConfig :=
  {| Mappings := [{| AccountID := "A1"; CustomName := "Checking" |}];
     IgnoreList := ["A2"] |}.

Definition bank : Organization := {| Domain := "bank.example" |}.

Definition A1 : Account :=
  {| Org := bank; ID := "A1"; Name := "Everyday"; Currency := "USD";
     Balance := "100.50"; AvailableBalance := "90.00";
     BalanceDate := 1700000000 |}.

Definition A2 : Account :=
  {| Org := bank; ID := "A2"; Name := "Old savings"; Currency := "USD";
     Balance := "12.00"; AvailableBalance := "12.00";
     BalanceDate := 1700000000 |}.

(** A record whose balance is not a number. *)
Definition A3 : Account :=
  {| Org := bank; ID := "A3"; Name := "Card"; Currency := "USD";
     Balance := "n/a"; AvailableBalance := "250.00";
     BalanceDate := 1700000100 |}.

(** A record with neither amount readable. *)
Definition A4 : Account :=
  {| Org := bank; ID := "A4"; Name := "Loan"; Currency := "USD";
     Balance := "pending"; AvailableBalance := "";
     BalanceDate := 1700000200 |}.

(** An ignored record, unreadable as well. *)
Definition A5 : Account :=
  {| Org := bank; ID := "A2"; Name := "Old savings"; Currency := "USD";
     Balance := "?"; AvailableBalance := "?";
     BalanceDate := 1700000300 |}.

Definition e0 : Exporter := NewExporter policy.

(** The bridge: the claim URL of the token below answers 200 with an
    access URL, anything else 403. *)
Definition claim : string := "https://bridge.example/claim/abc".
Definition token : string := "aHR0cHM6Ly9icmlkZ2UuZXhhbXBsZS9jbGFpbS9hYmM=".
Definition granted : string := "https://user:pw@bridge.example/simplefin".

Definition bridge (ok : bool) : Env :=
  {| in_cluster_config := None; new_for_config := None;
     secret_get_fault := None; secret_update_fault := None;
     new_request := λ _, None;
     http_post := λ url,
       if ok && String.eqb url claim then DoResponse 200 (granted, None)
       else DoResponse 403 ("Forbidden", None);
     took := λ _, "1ms" |}.

Definition flags (tok file name : string) : Flags :=
  {| os_Args := ["exporter"]; setupToken := tok; accessUrl_flag := "";
     accessUrlVolatileFile := file; secretName := name; secretNamespace := "ns";
     accountMappingsFile := ""; debug := false; bindAddress := "127.0.0.1";
     httpPort := 8000; duration := "1h" |}.

Definition secret_with (url : string) : gmap (string * string) (option (gmap string string)) :=
  {[ ("ns", "sf") := Some {[ "access_url" := url ]} ]}.

Definition drop_file (url : string) : gmap string File :=
  {[ "/run/url" := {| content := url; readable := true; removable := true |} ]}.

(** A secret with a valid URL and a volatile file with another one. *)
Definition w_both : World :=
  {| env := bridge true; secrets := secret_with "https://store.example/a";
     files := drop_file "https://file.example/b"; trace := [] |}.


(** The secret exists and has no data yet. *)
Definition w_empty_secret : World :=
  {| env := bridge true; secrets := {[ ("ns", "sf") := None ]}; files := ∅;
     trace := [] |}.


(** The secret holds an error text instead of a URL. *)
Definition w_bad_secret : World :=
  {| env := bridge true; secrets := secret_with "error: claim failed";
     files := ∅; trace := [] |}.

Definition w_nothing : World :=
  {| env := bridge true; secrets := ∅; files := ∅; trace := [] |}.

End inputs.

(** ** Further inputs: other command lines and other clusters *)

Module more_inputs.
Import simplefin config exporter main inputs.
#[local] Existing Instance sample.lib.
#[local] Existing Instance sample.client.

(** A policy that names one account twice. *)
Definition renamed : AccountMappingConfig :=
  {| Mappings := [{| AccountID := "A1"; CustomName := "Checking" |};
                  {| AccountID := "A3"; CustomName := "Card" |};
                  {| AccountID := "A3"; CustomName := "Spare card" |}];
     IgnoreList := ["A2"] |}.

(** [-accessUrl] on the command line, no store, a mapping file that need
    not exist. *)
Definition flags_url (tok url : string) : Flags :=
  {| os_Args := ["exporter"]; setupToken := tok; accessUrl_flag := url;
     accessUrlVolatileFile := ""; secretName := ""; secretNamespace := "";
     accountMappingsFile := "/etc/mappings.json"; debug := true;
     bindAddress := ""; httpPort := 9090; duration := "30m" |}.

(** A volatile file and an update interval. *)
Definition flags_interval (file interval : string) : Flags :=
  {| os_Args := ["exporter"]; setupToken := ""; accessUrl_flag := "";
     accessUrlVolatileFile := file; secretName := ""; secretNamespace := "";
     accountMappingsFile := ""; debug := false; bindAddress := "";
     httpPort := 8000; duration := interval |}.

(** The bridge cannot be reached. *)
Definition unreachable : Env :=
  {| in_cluster_config := None; new_for_config := None;
     secret_get_fault := None; secret_update_fault := None;
     new_request := λ _, None;
     http_post := λ _, DoError "dial tcp: connection refused";
     took := λ _, "1ms" |}.

Definition w_unreachable : World :=
  {| env := unreachable; secrets := {[ ("ns", "sf") := None ]}; files := ∅;
     trace := [] |}.

(** The process does not run in a cluster. *)
Definition outside_cluster : Env :=
  {| in_cluster_config := Some "unable to load in-cluster configuration";
     new_for_config := None;
     secret_get_fault := None; secret_update_fault := None;
     new_request := λ _, None;
     http_post := λ _, DoResponse 403 ("Forbidden", None);
     took := λ _, "1ms" |}.

Definition w_outside : World :=
  {| env := outside_cluster; secrets := secret_with "https://store.example/a";
     files := drop_file "https://file.example/b"; trace := [] |}.

End more_inputs.

(** * Properties *)

(** ** Overwriting writes on a map *)

Section Writes.
Context `{Countable K} {V X : Type}.
Variable f : X → option (K * V).

Lemma lookup_write_step m x k :
  write_step f m x !! k =
    match f x with
    | Some (k', v) => if decide (k' = k) then Some v else m !! k
    | None => m !! k
    end.
Proof.
  unfold write_step. destruct (f x) as [[k' v]|]; [|done].
  rewrite lookup_insert. by case_decide.
Qed.

Lemma lookup_foldl_write l : ∀ m k,
  foldl (write_step f) m l !! k =
    match last_write f k l with Some v => Some v | None => m !! k end.
Proof.
  induction l as [|x l IH]; intros m k; simpl; [done|].
  rewrite IH, lookup_write_step.
  destruct (last_write f k l); [done|].
  destruct (f x) as [[k' v]|]; [|done]. by case_decide.
Qed.

Lemma foldl_write_twice l m :
  foldl (write_step f) (foldl (write_step f) m l) l = foldl (write_step f) m l.
Proof.
  apply map_eq. intros k. rewrite !lookup_foldl_write.
  by destruct (last_write f k l).
Qed.

Lemma foldl_write_frame l m k :
  (∀ x k' v, x ∈ l → f x = Some (k', v) → k' ≠ k) →
  foldl (write_step f) m l !! k = m !! k.
Proof.
  revert m. induction l as [|x l IH]; intros m Hl; simpl; [done|].
  rewrite IH by (intros; eapply Hl; [by right|done]).
  rewrite lookup_write_step.
  destruct (f x) as [[k' v]|] eqn:E; [|done].
  case_decide; [|done]. exfalso. by eapply (Hl x k' v); [left|..].
Qed.

End Writes.

(** ** The exporter *)

Section ExporterProperties.
Import simplefin config exporter.
Context `{GoLib}.

Lemma Exporter_eq (e1 e2 : Exporter) :
  balances e1 = balances e2 →
  availableBalances e1 = availableBalances e2 →
  last_updated e1 = last_updated e2 →
  AccountMappings e1 = AccountMappings e2 →
  e1 = e2.
Proof. destruct e1, e2; simpl; congruence. Qed.

Lemma export_account_fields e a :
  let e' := (export_account e a).1 in
  balances e' = write_step (balance_write (AccountMappings e)) (balances e) a ∧
  availableBalances e' =
    write_step (available_write (AccountMappings e)) (availableBalances e) a ∧
  last_updated e' = write_step (updated_write (AccountMappings e)) (last_updated e) a ∧
  AccountMappings e' = AccountMappings e.
Proof.
  unfold export_account, write_step, balance_write, available_write, updated_write.
  destruct (IsAccountIgnored _ _); [done|].
  destruct (ParseFloat (Balance a) 32) as [bal [?|]];
    destruct (ParseFloat (AvailableBalance a) 32) as [av [?|]]; done.
Qed.

Lemma export_loop_cons e a accs :
  export_loop e (a :: accs) =
    ((export_loop (export_account e a).1 accs).1,
     (export_account e a).2 ++ (export_loop (export_account e a).1 accs).2).
Proof.
  simpl. destruct (export_account e a) as [e1 l1]. simpl.
  by destruct (export_loop e1 accs).
Qed.

Lemma export_loop_fields accs : ∀ e,
  let e' := (export_loop e accs).1 in
  balances e' = foldl (write_step (balance_write (AccountMappings e))) (balances e) accs ∧
  availableBalances e' =
    foldl (write_step (available_write (AccountMappings e))) (availableBalances e) accs ∧
  last_updated e' =
    foldl (write_step (updated_write (AccountMappings e))) (last_updated e) accs ∧
  AccountMappings e' = AccountMappings e.
Proof.
  induction accs as [|a accs IH]; intros e; [done|].
  rewrite export_loop_cons. cbn [fst foldl].
  destruct (export_account_fields e a) as (Hb & Ha & Hu & Hm).
  destruct (IH (export_account e a).1) as (Hb' & Ha' & Hu' & Hm').
  rewrite Hm in Hb', Ha', Hu', Hm'. rewrite Hb', Ha', Hu', Hm', Hb, Ha, Hu. done.
Qed.

Lemma Export_fst e accounts :
  (Export e accounts).1.1 = (export_loop e (Accounts_ accounts)).1.
Proof. unfold Export. by destruct (export_loop _ _). Qed.

Lemma Export_logs e accounts :
  (Export e accounts).1.2 = (export_loop e (Accounts_ accounts)).2.
Proof. unfold Export. by destruct (export_loop _ _). Qed.

Lemma Export_err e accounts : (Export e accounts).2 = None.
Proof. unfold Export. by destruct (export_loop _ _). Qed.

(** C6: exporting a snapshot a second time, right after the first,
    leaves the exporter (all three gauge families, with every labelled
    value) exactly as the first export left it. *)
Theorem Export_idempotent (e : Exporter) (accounts : Accounts) :
  let e1 := (Export e accounts).1.1 in
  (Export e1 accounts).1.1 = e1 ∧
  balances (Export e1 accounts).1.1 = balances e1 ∧
  availableBalances (Export e1 accounts).1.1 = availableBalances e1 ∧
  last_updated (Export e1 accounts).1.1 = last_updated e1.
Proof.
  intros e1. assert (Heq : (Export e1 accounts).1.1 = e1); [|by rewrite Heq].
  unfold e1. rewrite !Export_fst.
  set (accs := Accounts_ accounts).
  destruct (export_loop_fields accs e) as (Hb & Ha & Hu & Hm).
  destruct (export_loop_fields accs (export_loop e accs).1) as (Hb' & Ha' & Hu' & Hm').
  rewrite Hm in Hb', Ha', Hu', Hm'.
  apply Exporter_eq.
  - rewrite Hb', Hb. apply foldl_write_twice.
  - rewrite Ha', Ha. apply foldl_write_twice.
  - rewrite Hu', Hu. apply foldl_write_twice.
  - by rewrite Hm', Hm.
Qed.

Lemma export_account_ignored e a :
  IsAccountIgnored (AccountMappings e) (ID a) = true →
  export_account e a = (e, [mkLog DebugLevel None (msg_skip a)]).
Proof. intros Hi. unfold export_account. by rewrite Hi. Qed.

Lemma Export_frame_ignored e accounts id :
  IsAccountIgnored (AccountMappings e) id = true →
  let e' := (Export e accounts).1.1 in
  (∀ d n c, balances e' !! (d, n, id, c) = balances e !! (d, n, id, c)) ∧
  (∀ d n c, availableBalances e' !! (d, n, id, c)
            = availableBalances e !! (d, n, id, c)) ∧
  (∀ d n, last_updated e' !! (d, n, id) = last_updated e !! (d, n, id)) ∧
  AccountMappings e' = AccountMappings e.
Proof.
  intros Hi e'. unfold e'. rewrite Export_fst.
  destruct (export_loop_fields (Accounts_ accounts) e) as (Hb & Ha & Hu & Hm).
  rewrite Hb, Ha, Hu, Hm. repeat split; intros.
  - apply foldl_write_frame. intros x k' v _. unfold balance_write.
    destruct (IsAccountIgnored _ (ID x)) eqn:E; [done|].
    destruct (ParseFloat _ _) as [? [?|]]; [done|].
    intros [= <- <-]. unfold key4. intros [= _ _ Hid _]. congruence.
  - apply foldl_write_frame. intros x k' v _. unfold available_write.
    destruct (IsAccountIgnored _ (ID x)) eqn:E; [done|].
    destruct (ParseFloat _ _) as [? [?|]]; [done|].
    intros [= <- <-]. unfold key4. intros [= _ _ Hid _]. congruence.
  - apply foldl_write_frame. intros x k' v _. unfold updated_write.
    destruct (IsAccountIgnored _ (ID x)) eqn:E; [done|].
    intros [= <- <-]. unfold key3. intros [= _ _ Hid]. congruence.
Qed.

(** C7: series of an ignored account identifier are neither created nor
    updated, whatever snapshots the successive polls export, and a record
    with such an identifier only writes a debug record: the exporter is
    returned as it was and no error record is logged. *)
Theorem ignored_account_never_exported (e : Exporter) (snaps : list Accounts)
    (id : string) :
  IsAccountIgnored (AccountMappings e) id = true →
  let e' := export_polls e snaps in
  (∀ d n c, balances e' !! (d, n, id, c) = balances e !! (d, n, id, c)) ∧
  (∀ d n c, availableBalances e' !! (d, n, id, c)
            = availableBalances e !! (d, n, id, c)) ∧
  (∀ d n, last_updated e' !! (d, n, id) = last_updated e !! (d, n, id)) ∧
  (∀ a, ID a = id →
        export_account e' a = (e', [mkLog DebugLevel None (msg_skip a)]) ∧
        count_errors (export_account e' a).2 = 0%nat).
Proof.
  intros Hi e'.
  assert (Hall : (∀ d n c, balances e' !! (d, n, id, c) = balances e !! (d, n, id, c)) ∧
    (∀ d n c, availableBalances e' !! (d, n, id, c)
              = availableBalances e !! (d, n, id, c)) ∧
    (∀ d n, last_updated e' !! (d, n, id) = last_updated e !! (d, n, id)) ∧
    AccountMappings e' = AccountMappings e).
  { unfold e', export_polls. clear e'. revert e Hi.
    induction snaps as [|s snaps IH]; intros e Hi; [done|]. simpl.
    destruct (Export_frame_ignored e s id Hi) as (Hb & Ha & Hu & Hm).
    destruct (IH (Export e s).1.1) as (Hb' & Ha' & Hu' & Hm'); [by rewrite Hm|].
    repeat split; intros; congruence. }
  destruct Hall as (Hb & Ha & Hu & Hm). repeat split; try done.
  - apply export_account_ignored. subst id. by rewrite Hm.
  - rewrite export_account_ignored by (subst id; by rewrite Hm). done.
Qed.

(** C8: for a record that is not ignored, whose balance does not parse
    while its available balance does, the loop body leaves the balance
    gauges as they were, sets the available-balance gauge of the record's
    labels to the parsed value and its last-updated gauge to the record's
    timestamp, and logs one error record, the one for the balance. *)
Theorem unparseable_balance_isolated (e : Exporter) (a : Account)
    (bal availBal : float64) (err : error) :
  IsAccountIgnored (AccountMappings e) (ID a) = false →
  ParseFloat (Balance a) 32 = (bal, Some err) →
  ParseFloat (AvailableBalance a) 32 = (availBal, None) →
  let e' := (export_account e a).1 in
  let logs := (export_account e a).2 in
  balances e' = balances e ∧
  availableBalances e' =
    <[key4 (AccountMappings e) a := availBal]> (availableBalances e) ∧
  last_updated e' =
    <[key3 (AccountMappings e) a := float64_of_int64 (BalanceDate a)]>
      (last_updated e) ∧
  logs = [mkLog ErrorLevel (Some err) (msg_parse "balance" a)] ∧
  count_errors logs = 1%nat ∧
  Export e {| Accounts_ := [a] |} = (e', logs, None).
Proof.
  intros Hi Hb Ha. unfold Export. simpl.
  unfold export_account. rewrite Hi, Hb, Ha. simpl. done.
Qed.

(** The mirror image: the balance is set although the available balance
    does not parse. *)
Lemma unparseable_available_isolated (e : Exporter) (a : Account)
    (bal availBal : float64) (err : error) :
  IsAccountIgnored (AccountMappings e) (ID a) = false →
  ParseFloat (Balance a) 32 = (bal, None) →
  ParseFloat (AvailableBalance a) 32 = (availBal, Some err) →
  let e' := (export_account e a).1 in
  balances e' = <[key4 (AccountMappings e) a := bal]> (balances e) ∧
  availableBalances e' = availableBalances e ∧
  (export_account e a).2 = [mkLog ErrorLevel (Some err) (msg_parse "available balance" a)].
Proof.
  intros Hi Hb Ha. unfold export_account. rewrite Hi, Hb, Ha. done.
Qed.

Lemma export_loop_all_fail accs : ∀ e,
  (∀ a, a ∈ accs →
        (ParseFloat (Balance a) 32).2 ≠ None ∧
        (ParseFloat (AvailableBalance a) 32).2 ≠ None) →
  balances (export_loop e accs).1 = balances e ∧
  availableBalances (export_loop e accs).1 = availableBalances e ∧
  AccountMappings (export_loop e accs).1 = AccountMappings e ∧
  count_errors (export_loop e accs).2 =
    (2 * length (List.filter (not_ignored (AccountMappings e)) accs))%nat.
Proof.
  induction accs as [|a accs IH]; intros e Hf; [done|].
  rewrite export_loop_cons. cbn [fst snd].
  destruct (Hf a) as [Hb Ha]; [by left|].
  destruct (IH (export_account e a).1) as (Hb' & Ha' & Hm' & Hc');
    [intros; apply Hf; by right|].
  assert (Hstep : balances (export_account e a).1 = balances e ∧
            availableBalances (export_account e a).1 = availableBalances e ∧
            AccountMappings (export_account e a).1 = AccountMappings e ∧
            count_errors (export_account e a).2 =
              (if not_ignored (AccountMappings e) a then 2 else 0)%nat).
  { unfold export_account, not_ignored.
    destruct (IsAccountIgnored _ _); [done|].
    destruct (ParseFloat (Balance a) 32) as [? [?|]]; [|done].
    destruct (ParseFloat (AvailableBalance a) 32) as [? [?|]]; [|done].
    done. }
  destruct Hstep as (Hb1 & Ha1 & Hm1 & Hc1).
  rewrite Hb', Ha', Hm', Hb1, Ha1, Hm1. repeat split.
  unfold count_errors in *. rewrite List.filter_app, length_app, Hc', Hc1, Hm1.
  simpl. destruct (not_ignored _ a); simpl; lia.
Qed.

(** C10: [Export] returns [nil] on every exporter and snapshot. When no
    record's balance or available balance parses, the balance and
    available-balance gauges stay as they were and the failures show only
    as log records, two for each record that is not ignored. *)
Theorem Export_returns_nil (e : Exporter) (accounts : Accounts) :
  (Export e accounts).2 = None ∧
  ((∀ a, a ∈ Accounts_ accounts →
         (ParseFloat (Balance a) 32).2 ≠ None ∧
         (ParseFloat (AvailableBalance a) 32).2 ≠ None) →
   (Export e accounts).2 = None ∧
   balances (Export e accounts).1.1 = balances e ∧
   availableBalances (Export e accounts).1.1 = availableBalances e ∧
   count_errors (Export e accounts).1.2 =
     (2 * length (List.filter (not_ignored (AccountMappings e))
                    (Accounts_ accounts)))%nat).
Proof.
  split; [apply Export_err|]. intros Hf.
  rewrite Export_err, Export_fst, Export_logs.
  destruct (export_loop_all_fail (Accounts_ accounts) e Hf) as (? & ? & _ & ?).
  done.
Qed.

End ExporterProperties.

(** ** What a run can change

    Every computation only appends to the trace; the secrets change only
    in a run that records an [EvSecretUpdate], and the files only in one
    that records an [EvRemove]. [ok] is the set of events a computation
    is allowed to record. *)

Section Frames.
Variable ok : Event → bool.

Lemma wstep_refl w : wstep ok w w.
Proof. split; [done|]. exists []. by rewrite app_nil_r. Qed.

Lemma wstep_trans w1 w2 w3 : wstep ok w1 w2 → wstep ok w2 w3 → wstep ok w1 w3.
Proof.
  intros [He1 (evs1 & Ht1 & Hok1 & Hs1 & Hf1)] [He2 (evs2 & Ht2 & Hok2 & Hs2 & Hf2)].
  split; [congruence|]. exists (evs1 ++ evs2).
  rewrite Ht2, Ht1, <- app_assoc, forallb_app, Hok1, Hok2, !existsb_app.
  repeat split; intros [??]%orb_false_iff.
  - rewrite Hs2, Hs1; done.
  - rewrite Hf2, Hf1; done.
Qed.

Lemma io_keeps_ret {A} (a : A) : io_keeps ok (mret a).
Proof. intros w. apply wstep_refl. Qed.

Lemma io_keeps_bind {A B} (c : IO A) (k : A → IO B) :
  io_keeps ok c → (∀ a, io_keeps ok (k a)) → io_keeps ok (c ≫= k).
Proof.
  intros Hc Hk w. unfold mbind, IO_bind, io_bind.
  specialize (Hc w). destruct (c w) as [a w1]. specialize (Hk a w1).
  eapply wstep_trans; eauto.
Qed.

Lemma io_keeps_emit e : ok e = true → io_keeps ok (emit e).
Proof.
  intros He w. split; [done|]. exists [e]. simpl. rewrite He.
  repeat split; done.
Qed.

Lemma io_keeps_pure {A} (f : World → A) : io_keeps ok ((λ w, (f w, w)) : IO A).
Proof. intros w. apply wstep_refl. Qed.

Lemma io_keeps_ReadFile name :
  ok (EvReadFile name) = true → io_keeps ok (os.ReadFile name).
Proof.
  intros He. unfold os.ReadFile. apply io_keeps_bind; [by apply io_keeps_emit|].
  intros _ w. simpl. destruct (files w !! name) as [f|]; [destruct (readable f)|];
    apply wstep_refl.
Qed.

Lemma io_keeps_Remove name :
  ok (EvRemove name) = true → io_keeps ok (os.Remove name).
Proof.
  intros He w. unfold os.Remove, mbind, IO_bind, io_bind, emit. simpl.
  destruct (files w !! name) as [[? ? []]|]; simpl;
    (split; [done|]); exists [EvRemove name]; simpl; rewrite He;
    repeat split; done.
Qed.

Lemma io_keeps_Get ns name :
  ok (EvSecretGet ns name) = true → io_keeps ok (k8s.Get ns name).
Proof.
  intros He. unfold k8s.Get. apply io_keeps_bind; [by apply io_keeps_emit|].
  intros _ w. simpl.
  destruct (secret_get_fault (env w)); [apply wstep_refl|].
  destruct (secrets w !! (ns, name)); apply wstep_refl.
Qed.

Lemma io_keeps_Update ns s :
  ok (EvSecretUpdate ns s) = true → io_keeps ok (k8s.Update ns s).
Proof.
  intros He w. unfold k8s.Update, mbind, IO_bind, io_bind, emit. simpl.
  destruct (secret_update_fault (env w));
    [|destruct (secrets w !! (ns, SecretName s))]; simpl;
    (split; [done|]); exists [EvSecretUpdate ns s]; simpl; rewrite He;
    repeat split; done.
Qed.

Section WithLibs.
Context `{GoLib} `{SimplefinPkg simplefin.Accounts}.
Import main.

Lemma sstep_refl st : sstep ok st st.
Proof. split; [apply wstep_refl|done]. Qed.

Lemma sstep_trans st1 st2 st3 : sstep ok st1 st2 → sstep ok st2 st3 → sstep ok st1 st3.
Proof. intros [? ?] [? ?]. split; [by eapply wstep_trans|auto]. Qed.

Lemma keeps_ret {A} (a : A) : keeps ok (mret a).
Proof. intros st. apply sstep_refl. Qed.

Lemma keeps_bind {A B} (c : M A) (k : A → M B) :
  keeps ok c → (∀ a, keeps ok (k a)) → keeps ok (c ≫= k).
Proof.
  intros Hc Hk st. unfold mbind, M_bind, m_bind.
  specialize (Hc st). destruct (c st) as [[a| |] st1]; [|done..].
  eapply sstep_trans; [done|apply Hk].
Qed.

Lemma keeps_lift {A} (c : IO A) : io_keeps ok c → keeps ok (lift c).
Proof.
  intros Hc st. unfold lift. specialize (Hc (world st)).
  destruct (c (world st)). split; done.
Qed.

Lemma keeps_gets {A} (f : State → A) : keeps ok (gets f).
Proof. intros st. apply sstep_refl. Qed.

Lemma keeps_panic {A} msg : keeps ok (panic msg : M A).
Proof. intros st. apply sstep_refl. Qed.

Lemma keeps_set_accessUrl v : keeps ok (set_accessUrl v).
Proof. intros st. split; [apply wstep_refl|done]. Qed.

Lemma keeps_set_updateInterval v : keeps ok (set_updateInterval v).
Proof. intros st. split; [apply wstep_refl|done]. Qed.

Lemma keeps_set_client v : keeps ok (set_client v).
Proof. intros st. split; [apply wstep_refl|done]. Qed.

Lemma keeps_set_accountMappings v : keeps ok (set_accountMappings v).
Proof. intros st. split; [apply wstep_refl|done]. Qed.

Lemma keeps_set_k8sClient : keeps ok (set_k8sClient true).
Proof. intros st. split; [apply wstep_refl|done]. Qed.

Lemma keeps_log l err msg :
  ok (EvLog (mkLog l err msg)) = true → keeps ok (log_ l err msg).
Proof. intros. by apply keeps_lift, io_keeps_emit. Qed.

Lemma keeps_Fatal {A} err msg :
  ok (EvLog (mkLog FatalLevel err msg)) = true → keeps ok (Fatal err msg : M A).
Proof.
  intros He st. unfold Fatal.
  pose proof (keeps_log FatalLevel err msg He st) as Hl.
  by destruct (log_ FatalLevel err msg st).
Qed.

Lemma keeps_when b c : keeps ok c → keeps ok (when b c).
Proof. intros Hc. destruct b; [done|apply keeps_ret]. Qed.

Lemma keeps_with_k8sClient {A} (c : IO A) : io_keeps ok c → keeps ok (with_k8sClient c).
Proof.
  intros Hc. unfold with_k8sClient. apply keeps_bind; [apply keeps_gets|].
  intros []; [by apply keeps_lift|apply keeps_panic].
Qed.

End WithLibs.
End Frames.

Ltac frame_step :=
  first
    [ apply keeps_log; reflexivity | apply keeps_Fatal; reflexivity
    | apply keeps_set_accessUrl | apply keeps_set_updateInterval
    | apply keeps_set_client | apply keeps_set_accountMappings
    | apply keeps_set_k8sClient | apply keeps_when
    | apply keeps_gets | apply keeps_panic | apply keeps_ret
    | apply keeps_with_k8sClient | apply keeps_lift | apply keeps_bind
    | apply io_keeps_ReadFile; reflexivity | apply io_keeps_Remove; reflexivity
    | apply io_keeps_Get; reflexivity | apply io_keeps_Update; reflexivity
    | apply io_keeps_emit; reflexivity
    | apply io_keeps_ret | apply io_keeps_pure | apply io_keeps_bind
    | match goal with
      | |- keeps _ (match ?x with _ => _ end) => destruct x
      | |- io_keeps _ (match ?x with _ => _ end) => destruct x
      | |- ∀ _, _ => intro
      end ].

Ltac frame := repeat frame_step.

Section BlockFrames.
Context `{GoLib} `{SimplefinPkg simplefin.Accounts}.
Import main config.
Variable fl : Flags.

Lemma wstep_weaken (ok ok' : Event → bool) w w' :
  (∀ e, ok e = true → ok' e = true) → wstep ok w w' → wstep ok' w w'.
Proof.
  intros Hi [He (evs & Ht & Hok & Hs & Hf)]. split; [done|].
  exists evs. repeat split; try done.
  apply forallb_forall. intros e He'. apply Hi.
  by eapply forallb_forall in Hok.
Qed.

Lemma keeps_weaken (ok ok' : Event → bool) {A} (c : M A) :
  (∀ e, ok e = true → ok' e = true) → keeps ok c → keeps ok' c.
Proof. intros Hi Hc st. destruct (Hc st). split; [by eapply wstep_weaken|done]. Qed.

Lemma parse_flags_keeps : keeps is_log (parse_flags fl).
Proof. unfold parse_flags. frame. Qed.

Lemma getAccessUrlFromSecret_keeps :
  keeps ok_secret_read (getAccessUrlFromSecret fl).
Proof. unfold getAccessUrlFromSecret. frame. Qed.

Lemma read_secret_keeps : keeps ok_secret_read (read_secret fl).
Proof.
  unfold read_secret, initKubernetesClient, getAccessUrlFromSecret. frame.
Qed.

Lemma ReadAndDeleteAccessURLFile_keeps p :
  io_keeps ok_file (ReadAndDeleteAccessURLFile p).
Proof. unfold ReadAndDeleteAccessURLFile. frame. Qed.

Lemma read_volatile_file_keeps : keeps ok_file (read_volatile_file fl).
Proof.
  unfold read_volatile_file. frame.
Qed.

Lemma make_client_keeps : keeps ok_client (make_client fl).
Proof.
  unfold make_client, createClientAndGetAccessUrl, saveAccessUrlToSecret,
    newClient, http_Do.
  frame.
Qed.

Lemma load_mappings_keeps : keeps ok_load (load_mappings fl).
Proof. unfold load_mappings, LoadAccountMappings. frame. Qed.


End BlockFrames.

(** ** Credential resolution *)

Section Resolution.
Context `{GoLib} `{SimplefinPkg simplefin.Accounts}.
Import main config.

Lemma run_bind {A B} (c : M A) (k : A → M B) st :
  (c ≫= k) st =
    match c st with
    | (Return a, st1) => k a st1
    | (Exit code, st1) => (Exit code, st1)
    | (Panic msg, st1) => (Panic msg, st1)
    end.
Proof. done. Qed.

Lemma bind_Return {A B} (c : M A) (k : A → M B) st a st1 :
  c st = (Return a, st1) → (c ≫= k) st = k a st1.
Proof. intros Hc. by rewrite run_bind, Hc. Qed.

Lemma bind_Exit {A B} (c : M A) (k : A → M B) st code st1 :
  c st = (Exit code, st1) → (c ≫= k) st = (Exit code, st1).
Proof. intros Hc. by rewrite run_bind, Hc. Qed.

Lemma bind_Return_inv {A B} (c : M A) (k : A → M B) st b st' :
  (c ≫= k) st = (Return b, st') →
  ∃ a st1, c st = (Return a, st1) ∧ k a st1 = (Return b, st').
Proof.
  rewrite run_bind. destruct (c st) as [[a| |] st1]; [|done..]. eauto.
Qed.

Lemma parseConfig_sources fl st :
  parseConfig fl st = (sources fl ;; make_client fl ;; load_mappings fl) st.
Proof.
  unfold parseConfig, sources, mbind, M_bind, m_bind.
  destruct (parse_flags fl st) as [[[]| |] s1]; [|done..].
  destruct (read_secret fl s1) as [[[]| |] s2]; [|done..].
  by destruct (read_volatile_file fl s2) as [[[]| |] s3].
Qed.

Lemma start_trace w : trace (world (start w)) = [].
Proof. done. Qed.

Lemma sources_keeps fl :
  keeps (λ e, is_log e || is_secret_get e || is_file_op e) (sources fl).
Proof.
  unfold sources.
  apply keeps_bind;
    [eapply keeps_weaken; [|apply parse_flags_keeps]; by intros []|intros _].
  apply keeps_bind;
    [eapply keeps_weaken; [|apply read_secret_keeps]; by intros []|intros _].
  eapply keeps_weaken; [|apply read_volatile_file_keeps]. by intros [].
Qed.

(** What the sources leave behind, whatever they find. *)
Lemma sources_frame fl w :
  let st1 := (sources fl (start w)).2 in
  env (world st1) = env w ∧
  secrets (world st1) = secrets w ∧
  forallb (λ e, is_log e || is_secret_get e || is_file_op e)
    (trace (world st1)) = true.
Proof.
  destruct (sources_keeps fl (start w)) as [[He (evs & Ht & Hok & Hs & _)] _].
  simpl in *. repeat split; [done| |by rewrite Ht].
  apply Hs. clear -Hok. induction evs as [|e evs IH]; [done|].
  simpl in *. apply andb_prop in Hok as [He Hok]. rewrite IH by done.
  by destruct e.
Qed.

Lemma forallb_existsb_false {A} (p q : A → bool) l :
  (∀ x, p x = true → q x = false) → forallb p l = true → existsb q l = false.
Proof.
  intros Hpq. induction l as [|x l IH]; [done|]. simpl.
  intros [Hx Hl]%andb_prop. by rewrite (Hpq x Hx), IH.
Qed.

Lemma filter_none {A} (p q : A → bool) l :
  (∀ x, p x = true → q x = false) → forallb p l = true → List.filter q l = [].
Proof.
  intros Hpq. induction l as [|x l IH]; [done|]. simpl.
  intros [Hx Hl]%andb_prop. by rewrite (Hpq x Hx), IH.
Qed.

Lemma sources_trivial fl w :
  accessUrl_flag fl = "" → accessUrlVolatileFile fl = "" →
  store_configured fl = false →
  ∃ st1, sources fl (start w) = (Return tt, st1) ∧ accessUrl st1 = "".
Proof.
  intros Ha Hf Hs. unfold sources, parse_flags, read_secret, read_volatile_file.
  unfold store_configured in Hs. rewrite Ha, Hf, Hs.
  destruct (debug fl); eexists; split; reflexivity.
Qed.

(** C9: with no setup token, when no explicit URL, volatile file or
    store is configured, or when the sources that are configured leave
    the access URL empty, [main] exits with status 1 on the fatal record
    "Access URL or Setup Token required", and its trace holds no start
    of the metrics listener; [parseConfig] already ends that way. *)
Theorem no_credential_source_is_fatal (fl : Flags) (w : World) (n : nat) :
  setupToken fl = "" →
  (accessUrl_flag fl = "" ∧ accessUrlVolatileFile fl = "" ∧
   store_configured fl = false) ∨
  (∃ st1, sources fl (start w) = (Return tt, st1) ∧ accessUrl st1 = "") →
  ∃ st2,
    main.main fl n (start w) = (Exit 1, st2) ∧
    parseConfig fl (start w) = (Exit 1, st2) ∧
    last (trace (world st2)) =
      Some (fatal_entry None "Access URL or Setup Token required") ∧
    existsb is_listen (trace (world st2)) = false.
Proof.
  intros Ht Hsrc.
  assert (∃ st1, sources fl (start w) = (Return tt, st1) ∧ accessUrl st1 = "")
    as (st1 & Hrun & Ha).
  { destruct Hsrc as [(? & ? & ?)|?]; [by apply sources_trivial|done]. }
  destruct (sources_frame fl w) as (_ & _ & Hev). rewrite Hrun in Hev. simpl in Hev.
  assert (Hpc : parseConfig fl (start w) =
            (Exit 1, (Fatal None "Access URL or Setup Token required" st1 :
                        outcome unit * State).2)).
  { rewrite parseConfig_sources, (bind_Return _ _ _ _ _ Hrun).
    unfold make_client. rewrite !run_bind. unfold gets at 1.
    rewrite Ha, Ht. reflexivity. }
  eexists. split; [|split; [exact Hpc|]].
  - unfold main.main. by rewrite (bind_Exit _ _ _ _ _ Hpc).
  - simpl. split; [by rewrite last_snoc|].
    rewrite existsb_app. simpl.
    apply (forallb_existsb_false _ is_listen) in Hev; [|by intros []].
    by rewrite Hev.
Qed.

(** *** States reached by the first steps *)

Lemma State_eta (st : State) :
  st = {| accessUrl := accessUrl st; updateInterval := updateInterval st;
          k8sClient := k8sClient st; client := client st;
          accountMappings := accountMappings st;
          world := {| env := env (world st); secrets := secrets (world st);
                      files := files (world st); trace := trace (world st) |} |}.
Proof. by destruct st as [????? []]. Qed.

Lemma emitted_nil st : emitted st [] = st.
Proof. unfold emitted. rewrite app_nil_r. symmetry. apply State_eta. Qed.

Lemma emitted_app st evs evs' : emitted (emitted st evs) evs' = emitted st (evs ++ evs').
Proof. unfold emitted. simpl. by rewrite app_assoc. Qed.

Lemma parse_flags_run fl st :
  parse_flags fl st =
    (Return tt, emitted (with_accessUrl st (accessUrl_flag fl)) (banner fl)).
Proof.
  destruct st as [????? []].
  unfold parse_flags, banner, emitted, with_accessUrl.
  destruct (debug fl); simpl; [reflexivity|]. rewrite app_nil_r. reflexivity.
Qed.

Lemma store_configured_true fl :
  store_configured fl = true →
  streq (secretName fl) "" = false ∧ streq (secretNamespace fl) "" = false.
Proof.
  unfold store_configured, nonempty.
  by destruct (streq (secretName fl) ""), (streq (secretNamespace fl) "").
Qed.

Lemma unusable_secret_ext fl w w' :
  env w' = env w → secrets w' = secrets w →
  unusable_secret fl w → unusable_secret fl w'.
Proof.
  intros He Hs [err ?|??|data ???|data v ?????].
  - eapply get_fails. by rewrite He.
  - apply secret_missing; by rewrite ?He, ?Hs.
  - eapply field_missing; by rewrite ?He, ?Hs.
  - eapply field_invalid; by rewrite ?He, ?Hs.
Qed.

Lemma getAccessUrlFromSecret_unusable fl st :
  store_configured fl = true → k8sClient st = true →
  unusable_secret fl (world st) →
  ∃ evs, getAccessUrlFromSecret fl st = (Return ("", None), emitted st evs) ∧
         forallb (λ e, is_log e || is_secret_get e) evs = true.
Proof.
  intros [Hn Hns]%store_configured_true Hk Hu.
  destruct st as [????? [e sec fs tr]]. simpl in *. subst.
  unfold getAccessUrlFromSecret, with_k8sClient. rewrite Hn, Hns. simpl.
  unfold lift, k8s.Get, gets, log_, lift, emit, emitted,
    mbind, mret, M_bind, M_ret, m_bind, m_ret, IO_bind, io_bind. simpl.
  destruct Hu as [err He|He Hs|data He Hs Hd|data v He Hs Hd Hp Hp'];
    simpl in *; rewrite He; rewrite ?Hs; simpl; rewrite ?Hd; simpl;
    rewrite ?Hp, ?Hp'; simpl;
    eexists; (split; [rewrite <- ?app_assoc; reflexivity|reflexivity]).
Qed.

Ltac unfold_m :=
  unfold Fatal, when, log_, lift, gets, panic, set_accessUrl, set_updateInterval,
    set_k8sClient, set_client, set_accountMappings, emit,
    mbind, mret, M_bind, M_ret, m_bind, m_ret, IO_bind, IO_ret, io_bind, io_ret in *.

Lemma initKubernetesClient_ok st :
  in_cluster_config (env (world st)) = None →
  new_for_config (env (world st)) = None →
  initKubernetesClient st = (Return None, with_k8sClient_set st).
Proof.
  intros Hi Hn. destruct st as [????? []]. simpl in *.
  unfold initKubernetesClient. unfold_m. simpl. by rewrite Hi, Hn.
Qed.

Lemma read_secret_unusable fl st :
  store_configured fl = true →
  in_cluster_config (env (world st)) = None →
  new_for_config (env (world st)) = None →
  unusable_secret fl (world st) →
  ∃ evs, read_secret fl st = (Return tt, emitted (with_k8sClient_set st) evs) ∧
         forallb (λ e, is_log e || is_secret_get e) evs = true.
Proof.
  intros Hs Hi Hn Hu. unfold read_secret.
  unfold store_configured in Hs. rewrite Hs. unfold when at 1.
  rewrite (bind_Return _ _ _ _ _ (initKubernetesClient_ok st Hi Hn)).
  rewrite (bind_Return (mret tt) _ _ tt _ eq_refl).
  destruct (getAccessUrlFromSecret_unusable fl (with_k8sClient_set st))
    as (evs & Hg & Hev); [done..|].
  rewrite (bind_Return _ _ _ _ _ Hg). exists evs. split; [reflexivity|done].
Qed.

(** C4: when the secret is configured and its field [access_url] is
    present but starts with neither [http://] nor [https://], and likewise
    when the read fails, the secret does not exist or the field is missing,
    [getAccessUrlFromSecret] returns the empty string and no error, and
    [parseConfig] goes on with the volatile file from a state in which the
    access URL is still the one of the command line. *)
Theorem unusable_secret_is_absent (fl : Flags) (w : World) :
  store_configured fl = true →
  in_cluster_config (env w) = None → new_for_config (env w) = None →
  unusable_secret fl w →
  (∀ st, k8sClient st = true → world st = w →
         ∃ evs, getAccessUrlFromSecret fl st = (Return ("", None), emitted st evs)) ∧
  ∃ evs,
    let st1 := emitted (with_k8sClient_set
                          (with_accessUrl (start w) (accessUrl_flag fl))) evs in
    (parse_flags fl ;; read_secret fl) (start w) = (Return tt, st1) ∧
    forallb (λ e, is_log e || is_secret_get e) evs = true ∧
    accessUrl st1 = accessUrl_flag fl ∧
    parseConfig fl (start w) =
      (read_volatile_file fl ;; make_client fl ;; load_mappings fl) st1.
Proof.
  intros Hs Hi Hn Hu. split.
  - intros st Hk <-.
    destruct (getAccessUrlFromSecret_unusable fl st) as (evs & Hg & _); eauto.
  - destruct (read_secret_unusable fl
                (emitted (with_accessUrl (start w) (accessUrl_flag fl)) (banner fl)))
      as (evs & Hr & Hev);
      [exact Hs|exact Hi|exact Hn|
       apply (unusable_secret_ext fl w); [reflexivity|reflexivity|exact Hu]|].
    exists (banner fl ++ evs). cbn zeta.
    assert (Hst : emitted (with_k8sClient_set
                     (emitted (with_accessUrl (start w) (accessUrl_flag fl))
                        (banner fl))) evs
                  = emitted (with_k8sClient_set
                       (with_accessUrl (start w) (accessUrl_flag fl)))
                      (banner fl ++ evs)).
    { unfold emitted. simpl. reflexivity. }
    rewrite Hst in Hr. repeat split.
    + by rewrite run_bind, parse_flags_run.
    + rewrite forallb_app, Hev. unfold banner. by destruct (debug fl).
    + unfold parseConfig. by rewrite run_bind, parse_flags_run, run_bind, Hr.
Qed.

(** *** The secret never stops a run whose client could be built *)

Lemma getAccessUrlFromSecret_returns fl st :
  k8sClient st = true →
  ∃ storedAccessUrl st',
    getAccessUrlFromSecret fl st = (Return (storedAccessUrl, None), st').
Proof.
  intros Hk. destruct st as [????? [e sec fs tr]]. simpl in *. subst.
  unfold getAccessUrlFromSecret, with_k8sClient, k8s.Get. unfold_m. simpl.
  repeat (simpl in *; case_match; simplify_eq); do 2 eexists; reflexivity.
Qed.

Lemma read_secret_returns fl st :
  (store_configured fl = true →
   in_cluster_config (env (world st)) = None ∧
   new_for_config (env (world st)) = None) →
  ∃ st', read_secret fl st = (Return tt, st').
Proof.
  intros Hinit. unfold read_secret. fold (store_configured fl).
  destruct (store_configured fl); [|eexists; reflexivity].
  destruct Hinit as [Hi Hn]; [done|]. unfold when.
  rewrite (bind_Return _ _ _ _ _ (initKubernetesClient_ok st Hi Hn)).
  rewrite (bind_Return (mret tt) _ _ tt _ eq_refl).
  destruct (getAccessUrlFromSecret_returns fl (with_k8sClient_set st))
    as (u & st' & Hg); [done|].
  rewrite (bind_Return _ _ _ _ _ Hg).
  destruct (nonempty u); eexists; reflexivity.
Qed.

Lemma read_secret_outcome fl st :
  (∃ st', read_secret fl st = (Return tt, st')) ∨
  (∃ st', read_secret fl st = (Exit 1, st')).
Proof.
  destruct (store_configured fl) eqn:Hs;
    [|left; apply read_secret_returns; congruence].
  destruct (in_cluster_config (env (world st))) as [err|] eqn:Hi.
  { right. unfold read_secret. fold (store_configured fl). rewrite Hs.
    unfold initKubernetesClient, when. unfold_m. rewrite Hi. eexists; reflexivity. }
  destruct (new_for_config (env (world st))) as [err|] eqn:Hn.
  { right. unfold read_secret. fold (store_configured fl). rewrite Hs.
    unfold initKubernetesClient, when. unfold_m. rewrite Hi, Hn. eexists; reflexivity. }
  left. by apply read_secret_returns.
Qed.

Lemma read_secret_Return_init fl st st' :
  read_secret fl st = (Return tt, st') → store_configured fl = true →
  in_cluster_config (env (world st)) = None ∧
  new_for_config (env (world st)) = None.
Proof.
  intros Hr Hs. unfold read_secret in Hr. fold (store_configured fl) in Hr.
  rewrite Hs in Hr. unfold initKubernetesClient, when in Hr. unfold_m.
  destruct (in_cluster_config (env (world st))); [done|].
  by destruct (new_for_config (env (world st))).
Qed.

(** *** Frames read off [keeps] *)

Lemma keeps_env ok {A} (c : M A) st :
  keeps ok c → env (world (c st).2) = env (world st).
Proof. intros Hc. by destruct (Hc st) as [[? _] _]. Qed.

Lemma keeps_files ok {A} (c : M A) st :
  keeps ok c → (∀ e, ok e = true → is_remove e = false) →
  files (world (c st).2) = files (world st).
Proof.
  intros Hc Hok. destruct (Hc st) as [[_ (evs & _ & Hev & _ & Hf)] _].
  apply Hf. by eapply forallb_existsb_false.
Qed.

Lemma keeps_secrets ok {A} (c : M A) st :
  keeps ok c → (∀ e, ok e = true → is_update e = false) →
  secrets (world (c st).2) = secrets (world st).
Proof.
  intros Hc Hok. destruct (Hc st) as [[_ (evs & _ & Hev & Hs & _)] _].
  apply Hs. by eapply forallb_existsb_false.
Qed.

Lemma keeps_trace ok {A} (c : M A) st :
  keeps ok c →
  ∃ evs, trace (world (c st).2) = trace (world st) ++ evs ∧ forallb ok evs = true.
Proof. intros Hc. destruct (Hc st) as [[_ (evs & ? & ? & _)] _]. eauto. Qed.

(** *** The volatile file *)


Lemma ReadAndDelete_absent p w :
  files w !! p = None →
  ReadAndDeleteAccessURLFile p w =
    (("", Some (Errorf "error reading AccessUrl path: " (not_exist "open" p))),
     {| env := env w; secrets := secrets w; files := files w;
        trace := trace w ++ [EvReadFile p] |}).
Proof.
  intros Hf. destruct w as [e sec fs tr]. simpl in *.
  unfold ReadAndDeleteAccessURLFile, os.ReadFile. unfold_m. simpl. by rewrite Hf.
Qed.

Lemma ReadAndDelete_fails p w :
  file_step_fails p w →
  ∃ err w', ReadAndDeleteAccessURLFile p w = (("", Some err), w') ∧
            files w' = files w.
Proof.
  intros Hfail. destruct w as [e sec fs tr]. simpl in *.
  unfold ReadAndDeleteAccessURLFile, os.ReadFile, os.Remove. unfold_m. simpl.
  destruct Hfail as [Hf|f Hf Hr|f u err Hf Hr Hu|f v Hf Hr Hu Hd]; simpl in *;
    rewrite Hf; rewrite ?Hr, ?Hu; simpl; rewrite ?Hf, ?Hd;
    do 2 eexists; (split; [reflexivity|reflexivity]).
Qed.

Lemma ReadAndDelete_success_inv p w v w' :
  ReadAndDeleteAccessURLFile p w = ((v, None), w') →
  ∃ f, files w !! p = Some f ∧ readable f = true ∧ removable f = true ∧
       url_Parse_String (content f) = (v, None) ∧
       files w' = delete p (files w).
Proof.
  destruct w as [e sec fs tr].
  unfold ReadAndDeleteAccessURLFile, os.ReadFile, os.Remove. unfold_m. simpl.
  destruct (fs !! p) as [f|] eqn:Hf; [|done].
  destruct (readable f) eqn:Hr; [|done].
  destruct (url_Parse_String (content f)) as [u [err|]] eqn:Hu; [done|].
  simpl. rewrite Hf. destruct (removable f) eqn:Hd; [|done].
  intros [= -> <-]. exists f. by rewrite Hu.
Qed.

Lemma read_volatile_file_Return fl st st' :
  accessUrlVolatileFile fl ≠ "" →
  read_volatile_file fl st = (Return tt, st') →
  files (world st') !! accessUrlVolatileFile fl = None.
Proof.
  intros Hp. unfold read_volatile_file, nonempty, streq.
  destruct (String.eqb_spec (accessUrlVolatileFile fl) "") as [|_]; [done|].
  simpl. unfold_m.
  destruct (ReadAndDeleteAccessURLFile _ _) as [[v [err|]] w'] eqn:Hrd; [done|].
  apply ReadAndDelete_success_inv in Hrd as (f & _ & _ & _ & _ & Hw').
  intros [= <-]. simpl. rewrite Hw'. apply lookup_delete_eq.
Qed.

Lemma read_volatile_file_fatal fl st err w' :
  accessUrlVolatileFile fl ≠ "" →
  ReadAndDeleteAccessURLFile (accessUrlVolatileFile fl) (world st) = (("", Some err), w') →
  ∃ st', read_volatile_file fl st = (Exit 1, st') ∧
         trace (world st') =
           trace w' ++ [fatal_entry (Some err) "failed to read AccessUrl config"].
Proof.
  intros Hp Hrd. unfold read_volatile_file, nonempty, streq.
  destruct (String.eqb_spec (accessUrlVolatileFile fl) "") as [|_]; [done|].
  simpl. unfold_m. rewrite Hrd. eexists. split; reflexivity.
Qed.

Lemma sources_run fl st s1 :
  read_secret fl (emitted (with_accessUrl st (accessUrl_flag fl)) (banner fl))
    = (Return tt, s1) →
  sources fl st = read_volatile_file fl s1.
Proof.
  intros Hr. unfold sources.
  by rewrite (bind_Return _ _ _ _ _ (parse_flags_run fl st)),
    (bind_Return _ _ _ _ _ Hr).
Qed.

Lemma parseConfig_sources_Exit fl st code st' :
  sources fl st = (Exit code, st') → parseConfig fl st = (Exit code, st').
Proof. intros Hs. by rewrite parseConfig_sources, (bind_Exit _ _ _ _ _ Hs). Qed.

(** C5: with a volatile file configured, a [parseConfig] that returns has
    removed the file, and a new process started on the world it leaves
    exits on the fatal record of the failed read, "no such file or
    directory". When the file is absent or unreadable, its content does not
    parse as a URL, or it cannot be removed, [parseConfig] exits with
    status 1 without building a client, and, unless the Kubernetes client
    could not be set up before, the last record is the fatal one of the
    file. *)
Theorem volatile_file_consumed_once (fl : Flags) (w : World) :
  accessUrlVolatileFile fl ≠ "" →
  (∀ st', parseConfig fl (start w) = (Return tt, st') →
     files (world st') !! accessUrlVolatileFile fl = None ∧
     ∃ st'',
       parseConfig fl (start (world st')) = (Exit 1, st'') ∧
       last (trace (world st'')) =
         Some (fatal_entry
                 (Some (Errorf "error reading AccessUrl path: "
                          (not_exist "open" (accessUrlVolatileFile fl))))
                 "failed to read AccessUrl config")) ∧
  (file_step_fails (accessUrlVolatileFile fl) w →
     ∃ st2,
       parseConfig fl (start w) = (Exit 1, st2) ∧
       existsb is_new_client (trace (world st2)) = false ∧
       ((store_configured fl = true →
         in_cluster_config (env w) = None ∧ new_for_config (env w) = None) →
        ∃ err, last (trace (world st2)) =
                 Some (fatal_entry (Some err) "failed to read AccessUrl config"))).
Proof.
  intros Hp. set (p := accessUrlVolatileFile fl) in *.
  set (s1 := emitted (with_accessUrl (start w) (accessUrl_flag fl)) (banner fl)).
  split.
  - intros st' Hrun. unfold parseConfig in Hrun.
    rewrite (bind_Return _ _ _ _ _ (parse_flags_run fl (start w))) in Hrun.
    apply bind_Return_inv in Hrun as ([] & s2 & Hrs & Hrun).
    change (read_secret fl s1 = (Return tt, s2)) in Hrs.
    apply bind_Return_inv in Hrun as ([] & s3 & Hvf & Hrun).
    apply bind_Return_inv in Hrun as ([] & s4 & Hmc & Hlm).
    assert (Hgone : files (world st') !! p = None).
    { pose proof (keeps_files _ _ s3 (make_client_keeps fl)) as H4.
      pose proof (keeps_files _ _ s4 (load_mappings_keeps fl)) as H5.
      rewrite Hmc in H4. rewrite Hlm in H5. simpl in *.
      rewrite H5, H4; [by eapply read_volatile_file_Return|by intros []..]. }
    split; [done|].
    assert (Henv : env (world st') = env w).
    { pose proof (keeps_env _ _ s2 (read_volatile_file_keeps fl)) as H3.
      pose proof (keeps_env _ _ s3 (make_client_keeps fl)) as H4.
      pose proof (keeps_env _ _ s4 (load_mappings_keeps fl)) as H5.
      pose proof (keeps_env _ _ s1 (read_secret_keeps fl)) as H2.
      rewrite Hrs in H2. rewrite Hvf in H3. rewrite Hmc in H4. rewrite Hlm in H5.
      simpl in *. congruence. }
    set (s1' := emitted (with_accessUrl (start (world st')) (accessUrl_flag fl))
                  (banner fl)).
    destruct (read_secret_returns fl s1') as (s2' & Hrs').
    { intros Hs. simpl. rewrite Henv.
      by apply (read_secret_Return_init fl s1 s2). }
    pose proof (keeps_files _ _ s1' (read_secret_keeps fl)) as Hf2.
    rewrite Hrs' in Hf2. simpl in Hf2. specialize (Hf2 ltac:(by intros [])).
    destruct (read_volatile_file_fatal fl s2' _ _ Hp
                (ReadAndDelete_absent _ _ ltac:(by rewrite Hf2)))
      as (st'' & Hvf' & Htr).
    exists st''. split.
    + apply parseConfig_sources_Exit. by rewrite (sources_run _ _ _ Hrs').
    + rewrite Htr. apply last_snoc.
  - intros Hfail.
    destruct (read_secret_outcome fl s1) as [(s2 & Hrs)|(s2 & Hrs)].
    + pose proof (keeps_files _ _ s1 (read_secret_keeps fl)) as Hf2.
      rewrite Hrs in Hf2. simpl in Hf2. specialize (Hf2 ltac:(by intros [])).
      destruct (ReadAndDelete_fails p (world s2)) as (err & w' & Hrd & _).
      { destruct Hfail; [eapply file_absent|eapply file_unreadable|
          eapply url_unparsable|eapply file_undeletable]; rewrite ?Hf2; eauto. }
      destruct (read_volatile_file_fatal fl s2 _ _ Hp Hrd) as (st2 & Hvf & Htr).
      assert (Hsrc : sources fl (start w) = (Exit 1, st2))
        by (by rewrite (sources_run _ _ _ Hrs)).
      exists st2. split; [by apply parseConfig_sources_Exit|]. split.
      * destruct (sources_frame fl w) as (_ & _ & Hev). rewrite Hsrc in Hev.
        eapply forallb_existsb_false; [|exact Hev]. by intros [].
      * intros _. exists err. rewrite Htr. apply last_snoc.
    + assert (Hsrc : sources fl (start w) = (Exit 1, s2)).
      { unfold sources.
        by rewrite (bind_Return _ _ _ _ _ (parse_flags_run fl (start w))),
          (bind_Exit _ _ _ _ _ Hrs). }
      exists s2. split; [by apply parseConfig_sources_Exit|]. split.
      * destruct (sources_frame fl w) as (_ & _ & Hev). rewrite Hsrc in Hev.
        eapply forallb_existsb_false; [|exact Hev]. by intros [].
      * intros Hinit. exfalso.
        destruct (read_secret_returns fl s1) as (s2' & Hrs'); [exact Hinit|].
        congruence.
Qed.

(** *** The setup token *)


(** [make_client] when no access URL is known and a setup token is: the
    part after the interval has been stored. *)
Lemma make_client_token fl st d :
  accessUrl st = "" → setupToken fl ≠ "" →
  ParseDuration (duration fl) = (d, None) →
  make_client fl st =
    ('(c, err) ←
       ('(newAccessUrl, clientErr) ← createClientAndGetAccessUrl (setupToken fl);
        match clientErr with
        | Some clientErr =>
            Fatal (Some clientErr) "failed to create client from setup token"
        | None => mret tt
        end ;;
        when (store_configured fl)
          (saveErr ← saveAccessUrlToSecret fl newAccessUrl;
           match saveErr with
           | Some saveErr =>
               log_ WarnLevel (Some saveErr) "failed to save access URL to secret"
           | None => log_ InfoLevel None "successfully saved new access URL to secret"
           end) ;;
        newClient newAccessUrl);
     set_client c ;;
     match err with
     | Some err => Fatal (Some err) "failed to initialize simplefin client"
     | None => mret tt
     end) (with_updateInterval st d).
Proof.
  intros Ha Ht Hd. unfold make_client.
  rewrite (bind_Return (gets accessUrl) _ st "" st) by (by rewrite <- Ha).
  assert (Hne : streq (setupToken fl) "" = false).
  { unfold streq. by destruct (String.eqb_spec (setupToken fl) ""). }
  rewrite Hne, Hd. simpl.
  rewrite (bind_Return (mret tt) _ _ tt _ eq_refl).
  rewrite (bind_Return (mret tt) _ _ tt _ eq_refl).
  by rewrite (bind_Return (set_updateInterval d) _ st tt (with_updateInterval st d)).
Qed.


Lemma saveAccessUrlToSecret_run fl st url :
  store_configured fl = true → k8sClient st = true →
  ∃ saveErr evs,
    saveAccessUrlToSecret fl url st =
      (Return saveErr, emitted (with_secrets st (saved_secrets fl (world st) url)) evs) ∧
    forallb ok_save evs = true ∧
    (saveErr = None ↔
       secret_get_fault (env (world st)) = None ∧
       secret_update_fault (env (world st)) = None ∧
       is_Some (secrets (world st) !! (secretNamespace fl, secretName fl))).
Proof.
  intros [Hn Hns]%store_configured_true Hk.
  destruct st as [????? [e sec fs tr]]. simpl in *. subst.
  unfold saveAccessUrlToSecret, with_k8sClient, k8s.Get, k8s.Update, saved_secrets,
    emitted, with_secrets.
  rewrite Hn, Hns. unfold_m. simpl.
  destruct (secret_get_fault e) as [err|]; simpl.
  { exists (Some (Errorf "failed to get secret for update: " err)), 
      [EvSecretGet (secretNamespace fl) (secretName fl)].
    repeat split; try done. by intros (? & _). }
  destruct (sec !! (secretNamespace fl, secretName fl)) as [data|] eqn:Hs; simpl.
  2:{ eexists _, [EvSecretGet (secretNamespace fl) (secretName fl)].
      destruct (secret_update_fault e); repeat split; try done;
        by intros (_ & _ & [? ?]). }
  destruct (secret_update_fault e) as [err|]; simpl.
  { eexists _, [EvSecretGet (secretNamespace fl) (secretName fl); EvSecretUpdate _ _].
    rewrite <- app_assoc. repeat split; try done. by intros (_ & ? & _). }
  rewrite Hs. simpl.
  eexists _, [EvSecretGet (secretNamespace fl) (secretName fl); EvSecretUpdate _ _;
              EvLog _].
  rewrite <- !app_assoc. repeat split; done.
Qed.

Lemma load_mappings_client fl st : client (load_mappings fl st).2 = client st.
Proof.
  destruct st as [????? [e sec fs tr]].
  unfold load_mappings, LoadAccountMappings, os.ReadFile. unfold_m.
  repeat (simpl; case_match; simplify_eq); reflexivity.
Qed.

Lemma read_secret_k8sClient fl st st' :
  store_configured fl = true → read_secret fl st = (Return tt, st') →
  k8sClient st' = true.
Proof.
  intros Hs Hr.
  destruct (read_secret_Return_init fl st st' Hr Hs) as [Hi Hn].
  pose proof (read_secret_keeps fl (with_k8sClient_set st)) as [_ Hk].
  unfold read_secret in Hr, Hk. fold (store_configured fl) in Hr, Hk.
  rewrite Hs in Hr, Hk. unfold when in Hr, Hk.
  rewrite (bind_Return _ _ _ _ _ (initKubernetesClient_ok st Hi Hn)) in Hr.
  rewrite (bind_Return _ _ _ _ _
             (initKubernetesClient_ok (with_k8sClient_set st) Hi Hn)) in Hk.
  change (with_k8sClient_set (with_k8sClient_set st))
    with (with_k8sClient_set st) in Hk.
  rewrite Hr in Hk. by apply Hk.
Qed.



Lemma sources_events e :
  is_log e || is_secret_get e || is_file_op e = true →
  is_new_client e = false ∧ is_http_post e = false.
Proof. by destruct e. Qed.

Lemma load_events e :
  ok_load e = true → is_new_client e = false ∧ is_http_post e = false.
Proof. by destruct e. Qed.


(** *** The secret and the volatile file together *)

Lemma nonempty_true s : s ≠ "" → nonempty s = true.
Proof. unfold nonempty, streq. by destruct (String.eqb_spec s ""). Qed.

Lemma parseConfig_after_client fl w st1 o stm :
  sources fl (start w) = (Return tt, st1) →
  make_client fl st1 = (o, stm) → o = Return tt ∨ o = Exit 1 →
  let st2 := (parseConfig fl (start w)).2 in
  client st2 = client stm ∧
  secrets (world st2) = secrets (world stm) ∧
  files (world st2) = files (world stm) ∧
  ∃ evs', trace (world st2) = trace (world stm) ++ evs' ∧
          forallb ok_load evs' = true.
Proof.
  intros Hsrc Hmc Ho st2. unfold st2.
  rewrite parseConfig_sources, (bind_Return _ _ _ _ _ Hsrc).
  destruct Ho as [-> | ->].
  - rewrite (bind_Return _ _ _ _ _ Hmc), load_mappings_client.
    rewrite (keeps_secrets _ _ stm (load_mappings_keeps fl)) by (by intros []).
    rewrite (keeps_files _ _ stm (load_mappings_keeps fl)) by (by intros []).
    repeat split; [done..|]. apply (keeps_trace _ _ stm (load_mappings_keeps fl)).
  - rewrite (bind_Exit _ _ _ _ _ Hmc). repeat split; [done..|].
    exists []. by rewrite app_nil_r.
Qed.




End Resolution.

(** * Further properties *)

(** ** The mapping policy *)

Ltac split_opt :=
  repeat split; intros;
  repeat match goal with
         | H : ∃ _, _ |- _ => destruct H
         | H : _ ∧ _ |- _ => destruct H
         | H : _ ∨ _ |- _ => destruct H
         end;
  simplify_eq; try done; try (eexists; reflexivity).

Section MappingPolicy.
Import config.
Context `{GoLib}.

Lemma streq_true a b : streq a b = true ↔ a = b.
Proof. unfold streq. apply String.eqb_eq. Qed.

Lemma streq_false a b : streq a b = false ↔ a ≠ b.
Proof. unfold streq. apply String.eqb_neq. Qed.

Lemma lookup_mapping_first pre m post id :
  AccountID m = id → (∀ m', m' ∈ pre → AccountID m' ≠ id) →
  lookup_mapping (pre ++ m :: post) id = Some (CustomName m).
Proof.
  intros Hm. induction pre as [|m0 pre IH]; intros Hpre; simpl.
  - by rewrite (proj2 (streq_true _ _) Hm).
  - rewrite (proj2 (streq_false _ _) (Hpre m0 ltac:(left))).
    apply IH. intros m' Hin. apply Hpre. by right.
Qed.

Lemma lookup_mapping_none ms id :
  lookup_mapping ms id = None ↔ ∀ m, m ∈ ms → AccountID m ≠ id.
Proof.
  induction ms as [|m0 ms IH]; simpl.
  - split; [|done]. intros _ m Hin. by apply not_elem_of_nil in Hin.
  - destruct (streq (AccountID m0) id) eqn:E.
    + apply streq_true in E. split; [done|]. intros Hall.
      by destruct (Hall m0 ltac:(left)).
    + apply streq_false in E. rewrite IH. split.
      * intros Hall m [->|Hin]%elem_of_cons; auto.
      * intros Hall m Hin. apply Hall. by right.
Qed.

(** X1: [GetAccountNameMapping] returns the custom name of the first
    mapping whose account ID is the one asked for, whatever mappings with
    that ID follow it, and the original name when no mapping has that
    ID. *)
Theorem GetAccountNameMapping_first_match (config : AccountMappingConfig)
    (accountID originalName : string) :
  (∀ pre m post,
     Mappings config = pre ++ m :: post → AccountID m = accountID →
     (∀ m', m' ∈ pre → AccountID m' ≠ accountID) →
     GetAccountNameMapping config accountID originalName = CustomName m) ∧
  ((∀ m, m ∈ Mappings config → AccountID m ≠ accountID) →
   GetAccountNameMapping config accountID originalName = originalName).
Proof.
  unfold GetAccountNameMapping. split.
  - intros pre m post -> Hm Hpre. by rewrite lookup_mapping_first.
  - intros Hall. by rewrite (proj2 (lookup_mapping_none _ _) Hall).
Qed.

(** X2: [IsAccountIgnored] answers [true] exactly for the identifiers that
    occur in the ignore list, compared as whole strings. *)
Theorem IsAccountIgnored_iff (config : AccountMappingConfig) (accountID : string) :
  IsAccountIgnored config accountID = true ↔ accountID ∈ IgnoreList config.
Proof.
  unfold IsAccountIgnored.
  induction (IgnoreList config) as [|x l IH]; simpl.
  - split; [done|]. intros Hin. by apply not_elem_of_nil in Hin.
  - destruct (streq x accountID) eqn:E.
    + apply streq_true in E. subst. split; [|done]. intros _. by left.
    + apply streq_false in E. rewrite IH. split.
      * intros Hin. by right.
      * intros [->|Hin]%elem_of_cons; [done|done].
Qed.


Lemma LoadAccountMappings_cases filepath w :
  let r := LoadAccountMappings filepath w in
  files r.2 = files w ∧ secrets r.2 = secrets w ∧ env r.2 = env w ∧
  (filepath = "" → r = ((Some empty_config, None), w)) ∧
  match files w !! filepath with
  | None => r.1 = (Some empty_config, None)
  | Some f =>
      filepath ≠ "" →
      if readable f then
        match json_Unmarshal (content f) with
        | (_, Some err) =>
            r.1 = (None, Some (Errorf "error parsing account mappings JSON: " err))
        | ((ms, ign), None) =>
            r.1 = (Some {| Mappings :=
                             map (λ p, {| AccountID := p.1; CustomName := p.2 |}) ms;
                           IgnoreList := ign |}, None)
        end
      else ∃ err, r.1 = (None, Some err)
  end.
Proof.
  destruct w as [e sec fs tr]. unfold LoadAccountMappings, os.ReadFile, emit.
  unfold mbind, mret, IO_bind, IO_ret, io_bind, io_ret. simpl.
  destruct (streq filepath "") eqn:E; simpl.
  - apply streq_true in E. subst. repeat split; try done.
    destruct (fs !! "") as [f|]; [|done]. done.
  - apply streq_false in E.
    destruct (fs !! filepath) as [f|]; simpl; [|repeat split; done].
    destruct (readable f); simpl; [|repeat split; try done; by eexists].
    destruct (json_Unmarshal (content f)) as [[ms ign] [err|]]; repeat split; done.
Qed.

(** X3: with an empty path, [LoadAccountMappings] touches nothing and
    returns the empty policy; with the path of a file that does not exist
    it returns the empty policy as well, and no error. Under that policy
    every account keeps its original name and none is ignored. *)
Theorem LoadAccountMappings_absent (filepath : string) (w : World) :
  filepath = "" ∨ files w !! filepath = None →
  ∃ cfg,
    (LoadAccountMappings filepath w).1 = (Some cfg, None) ∧
    (filepath = "" → (LoadAccountMappings filepath w).2 = w) ∧
    files (LoadAccountMappings filepath w).2 = files w ∧
    ∀ accountID originalName,
      GetAccountNameMapping cfg accountID originalName = originalName ∧
      IsAccountIgnored cfg accountID = false.
Proof.
  intros Hp. exists empty_config.
  destruct (LoadAccountMappings_cases filepath w) as (Hf & _ & _ & He & Hc).
  repeat split; try done.
  - destruct Hp as [->|Hnone]; [by rewrite He|]. by rewrite Hnone in Hc.
  - intros ->. by rewrite He.
Qed.

(** X4: [LoadAccountMappings] never changes a file or a secret, and it
    returns either a policy and no error or no policy and an error, never
    both and never neither. The error case is exactly that of a file that
    exists at a non-empty path and either cannot be read or does not parse
    as JSON. *)
Theorem LoadAccountMappings_result (filepath : string) (w : World) :
  let r := LoadAccountMappings filepath w in
  files r.2 = files w ∧ secrets r.2 = secrets w ∧
  (is_Some r.1.1 ↔ r.1.2 = None) ∧
  (r.1.1 = None ↔ is_Some r.1.2) ∧
  (is_Some r.1.2 ↔
   filepath ≠ "" ∧
   ∃ f, files w !! filepath = Some f ∧ (readable f = false ∨ json_fails f)).
Proof.
  intros r.
  destruct (LoadAccountMappings_cases filepath w) as (Hf & Hs & _ & He & Hc).
  fold r in Hf, Hs, He, Hc. split; [done|]. split; [done|].
  unfold is_Some.
  destruct (decide (filepath = "")) as [->|Hne].
  { rewrite He by done. simpl. split_opt. }
  destruct (files w !! filepath) as [f|] eqn:Hfile.
  2:{ rewrite Hc. simpl. split_opt. }
  specialize (Hc Hne). unfold json_fails.
  destruct (readable f) eqn:Hr.
  - destruct (json_Unmarshal (content f)) as [[ms ign] [err|]] eqn:Hj;
      rewrite Hc; simpl; split_opt; try congruence;
      try (rewrite Hj in *; simpl in *; congruence).
    exists f. rewrite Hj. split; [done|]. by right.
  - destruct Hc as [err Hc]. rewrite Hc. simpl. split_opt.
    exists f. split; [done|]. by left.
Qed.

End MappingPolicy.

(** ** More on overwriting writes *)

Section MoreWrites.
Context `{Countable K} {V X : Type}.
Variable f : X → option (K * V).

Lemma last_write_Some_inv k l v :
  last_write f k l = Some v → ∃ x, x ∈ l ∧ f x = Some (k, v).
Proof.
  induction l as [|x l IH]; simpl; [done|].
  destruct (last_write f k l) as [v'|].
  - intros [= ->]. destruct IH as (y & Hy & Hfy); [done|].
    exists y. split; [by right|done].
  - destruct (f x) as [[k' v']|] eqn:E; [|done].
    case_decide; [|done]. intros [= ->]. subst k'.
    exists x. split; [by left|done].
Qed.

Lemma last_write_is_Some k l x v :
  x ∈ l → f x = Some (k, v) → is_Some (last_write f k l).
Proof.
  induction l as [|y l IH]; [by intros ?%not_elem_of_nil|].
  intros [->|Hin]%elem_of_cons Hfx; simpl.
  - destruct (last_write f k l); [by eexists|].
    rewrite Hfx. rewrite decide_True by done. by eexists.
  - destruct (IH Hin Hfx) as [v' ->]. by eexists.
Qed.

Lemma last_write_unique k l x v :
  x ∈ l → f x = Some (k, v) →
  (∀ y v', y ∈ l → f y = Some (k, v') → v' = v) →
  last_write f k l = Some v.
Proof.
  intros Hin Hfx Hall.
  destruct (last_write_is_Some k l x v Hin Hfx) as [v' Hv'].
  rewrite Hv'. f_equal.
  apply last_write_Some_inv in Hv' as (y & Hy & Hfy). by eapply Hall.
Qed.

Lemma foldl_write_is_Some l m k :
  is_Some (foldl (write_step f) m l !! k) ↔
  is_Some (m !! k) ∨ ∃ x v, x ∈ l ∧ f x = Some (k, v).
Proof.
  rewrite lookup_foldl_write.
  destruct (last_write f k l) as [v|] eqn:E.
  - split; [|by eexists]. intros _. right.
    apply last_write_Some_inv in E as (x & ? & ?). eauto.
  - split; [by left|]. intros [?|(x & v & Hin & Hfx)]; [done|].
    destruct (last_write_is_Some k l x v Hin Hfx) as [? ?]. congruence.
Qed.

End MoreWrites.

(** ** More on the exporter *)

Section ExporterMore.
Import simplefin config exporter.
Context `{GoLib}.

Lemma export_loop_app accs1 : ∀ e accs2,
  export_loop e (accs1 ++ accs2) =
    ((export_loop (export_loop e accs1).1 accs2).1,
     (export_loop e accs1).2 ++ (export_loop (export_loop e accs1).1 accs2).2).
Proof.
  induction accs1 as [|a accs1 IH]; intros e accs2.
  - simpl. by destruct (export_loop e accs2).
  - rewrite <- app_comm_cons, !export_loop_cons, IH. simpl.
    by rewrite app_assoc.
Qed.

(** X5: exporting a snapshot made of two parts is exporting the first
    part and then the second into the exporter the first leaves: the same
    gauges result and the same log records, in the same order. *)
Theorem Export_app (e : Exporter) (accs1 accs2 : list Account) :
  Export e {| Accounts_ := accs1 ++ accs2 |} =
    let r1 := Export e {| Accounts_ := accs1 |} in
    let r2 := Export r1.1.1 {| Accounts_ := accs2 |} in
    (r2.1.1, r1.1.2 ++ r2.1.2, None).
Proof.
  cbn zeta. rewrite !Export_fst, !Export_logs. simpl.
  unfold Export. simpl. rewrite export_loop_app.
  by destruct (export_loop e accs1), (export_loop _ accs2).
Qed.

(** X6: [Export] only ever sets gauges. A series exists afterwards exactly
    when it existed before or the snapshot holds a record that is not
    ignored, carries its labels and, for the two balance families, has a
    value that parses; no series is removed and the policy is untouched. *)
Theorem Export_series (e : Exporter) (accounts : Accounts) :
  let e' := (Export e accounts).1.1 in
  let am := AccountMappings e in
  AccountMappings e' = am ∧
  (∀ k, is_Some (balances e' !! k) ↔
        is_Some (balances e !! k) ∨
        ∃ a, a ∈ Accounts_ accounts ∧ IsAccountIgnored am (ID a) = false ∧
             (ParseFloat (Balance a) 32).2 = None ∧ key4 am a = k) ∧
  (∀ k, is_Some (availableBalances e' !! k) ↔
        is_Some (availableBalances e !! k) ∨
        ∃ a, a ∈ Accounts_ accounts ∧ IsAccountIgnored am (ID a) = false ∧
             (ParseFloat (AvailableBalance a) 32).2 = None ∧ key4 am a = k) ∧
  (∀ k, is_Some (last_updated e' !! k) ↔
        is_Some (last_updated e !! k) ∨
        ∃ a, a ∈ Accounts_ accounts ∧ IsAccountIgnored am (ID a) = false ∧
             key3 am a = k).
Proof.
  intros e' am. unfold e'. rewrite Export_fst.
  destruct (export_loop_fields (Accounts_ accounts) e) as (Hb & Ha & Hu & Hm).
  rewrite Hb, Ha, Hu, Hm. fold am. split; [done|].
  split; [|split]; intros k; rewrite foldl_write_is_Some;
    (split; intros [?|Hw]; [by left| |by left|]); right.
  - destruct Hw as (a & v & Hin & Hw). exists a. unfold balance_write in Hw.
    destruct (IsAccountIgnored am (ID a)); [done|].
    destruct (ParseFloat (Balance a) 32) as [bal [err|]]; [done|].
    by injection Hw as <- <-.
  - destruct Hw as (a & Hin & Hi & Hp & <-).
    destruct (ParseFloat (Balance a) 32) as [bal [err|]] eqn:E; [done|].
    exists a, bal. split; [done|]. unfold balance_write. by rewrite Hi, E.
  - destruct Hw as (a & v & Hin & Hw). exists a. unfold available_write in Hw.
    destruct (IsAccountIgnored am (ID a)); [done|].
    destruct (ParseFloat (AvailableBalance a) 32) as [bal [err|]]; [done|].
    by injection Hw as <- <-.
  - destruct Hw as (a & Hin & Hi & Hp & <-).
    destruct (ParseFloat (AvailableBalance a) 32) as [bal [err|]] eqn:E; [done|].
    exists a, bal. split; [done|]. unfold available_write. by rewrite Hi, E.
  - destruct Hw as (a & v & Hin & Hw). exists a. unfold updated_write in Hw.
    destruct (IsAccountIgnored am (ID a)); [done|].
    by injection Hw as <- <-.
  - destruct Hw as (a & Hin & Hi & <-).
    exists a, (float64_of_int64 (BalanceDate a)). split; [done|].
    unfold updated_write. by rewrite Hi.
Qed.

Lemma write_key4_ID am a k v :
  balance_write am a = Some (k, v) ∨ available_write am a = Some (k, v) →
  k = key4 am a.
Proof.
  unfold balance_write, available_write.
  destruct (IsAccountIgnored am (ID a)); [by intros [?|?]|].
  destruct (ParseFloat (Balance a) 32) as [? [?|]],
    (ParseFloat (AvailableBalance a) 32) as [? [?|]]; intros [?|?]; congruence.
Qed.

Lemma write_key3_ID am a k v : updated_write am a = Some (k, v) → k = key3 am a.
Proof.
  unfold updated_write. destruct (IsAccountIgnored am (ID a)); congruence.
Qed.

(** X7: the series of an account identifier that does not occur in the
    snapshot are left as they were, present or not: an account the bridge
    no longer reports keeps its last exported values. *)
Theorem Export_other_accounts (e : Exporter) (accounts : Accounts) (id : string) :
  (∀ a, a ∈ Accounts_ accounts → ID a ≠ id) →
  let e' := (Export e accounts).1.1 in
  (∀ d n c, balances e' !! (d, n, id, c) = balances e !! (d, n, id, c)) ∧
  (∀ d n c, availableBalances e' !! (d, n, id, c)
            = availableBalances e !! (d, n, id, c)) ∧
  (∀ d n, last_updated e' !! (d, n, id) = last_updated e !! (d, n, id)).
Proof.
  intros Hid e'. unfold e'. rewrite Export_fst.
  destruct (export_loop_fields (Accounts_ accounts) e) as (Hb & Ha & Hu & _).
  rewrite Hb, Ha, Hu. repeat split; intros; apply foldl_write_frame;
    intros a k' v Hin Hw ->.
  - assert (Hk : (d, n, id, c) = key4 (AccountMappings e) a)
      by (eapply write_key4_ID; by left).
    unfold key4 in Hk. injection Hk as _ _ Hk _. by eapply Hid.
  - assert (Hk : (d, n, id, c) = key4 (AccountMappings e) a)
      by (eapply write_key4_ID; by right).
    unfold key4 in Hk. injection Hk as _ _ Hk _. by eapply Hid.
  - apply write_key3_ID in Hw. unfold key3 in Hw.
    injection Hw as _ _ Hw. by eapply Hid.
Qed.

Lemma NoDup_map_ID_inj (accs : list Account) a b :
  NoDup (map ID accs) → a ∈ accs → b ∈ accs → ID a = ID b → a = b.
Proof.
  induction accs as [|x accs IH]; [by intros _ ?%not_elem_of_nil|].
  simpl. intros [Hx Hnd]%NoDup_cons [->|Ha]%elem_of_cons [->|Hb]%elem_of_cons Hid;
    [done| | |by apply IH].
  - destruct Hx. rewrite Hid. apply list_elem_of_fmap. by exists b.
  - destruct Hx. rewrite <- Hid. apply list_elem_of_fmap. by exists a.
Qed.

(** X8: when the identifiers of a snapshot are pairwise distinct, every
    record that is not ignored is read back from the gauges after the
    export: its timestamp from the last-updated gauge, each balance that
    parses from its gauge, and where a balance does not parse that gauge is
    as it was before the export. *)
Theorem Export_reflects_snapshot (e : Exporter) (accounts : Accounts) (a : Account) :
  NoDup (map ID (Accounts_ accounts)) →
  a ∈ Accounts_ accounts →
  IsAccountIgnored (AccountMappings e) (ID a) = false →
  let e' := (Export e accounts).1.1 in
  let am := AccountMappings e in
  last_updated e' !! key3 am a = Some (float64_of_int64 (BalanceDate a)) ∧
  match ParseFloat (Balance a) 32 with
  | (bal, None) => balances e' !! key4 am a = Some bal
  | (_, Some _) => balances e' !! key4 am a = balances e !! key4 am a
  end ∧
  match ParseFloat (AvailableBalance a) 32 with
  | (availBal, None) => availableBalances e' !! key4 am a = Some availBal
  | (_, Some _) =>
      availableBalances e' !! key4 am a = availableBalances e !! key4 am a
  end.
Proof.
  intros Hnd Hin Hi e' am. subst e' am. rewrite Export_fst.
  destruct (export_loop_fields (Accounts_ accounts) e) as (Hb & Ha & Hu & _).
  rewrite Hb, Ha, Hu. set (am := AccountMappings e) in *.
  assert (Hsame4 : ∀ y, y ∈ Accounts_ accounts → key4 am y = key4 am a → y = a).
  { intros y Hy Hk. unfold key4 in Hk. injection Hk as _ _ Hk _.
    by eapply NoDup_map_ID_inj. }
  assert (Hsame3 : ∀ y, y ∈ Accounts_ accounts → key3 am y = key3 am a → y = a).
  { intros y Hy Hk. unfold key3 in Hk. injection Hk as _ _ Hk.
    by eapply NoDup_map_ID_inj. }
  split; [|split].
  - rewrite lookup_foldl_write.
    rewrite (last_write_unique _ _ _ a (float64_of_int64 (BalanceDate a))); [done|done|..].
    + unfold updated_write. by rewrite Hi.
    + intros y v' Hy Hw. pose proof (write_key3_ID _ _ _ _ Hw) as Hk.
      rewrite (Hsame3 y Hy (eq_sym Hk)) in Hw. unfold updated_write in Hw.
      rewrite Hi in Hw. congruence.
  - destruct (ParseFloat (Balance a) 32) as [bal [err|]] eqn:E.
    + apply foldl_write_frame. intros y k' v Hy Hw ->.
      assert (Hk : key4 am a = key4 am y) by (eapply write_key4_ID; by left).
      rewrite (Hsame4 y Hy (eq_sym Hk)) in Hw. unfold balance_write in Hw.
      by rewrite Hi, E in Hw.
    + rewrite lookup_foldl_write.
      rewrite (last_write_unique _ _ _ a bal); [done|done|..].
      * unfold balance_write. by rewrite Hi, E.
      * intros y v' Hy Hw.
        assert (Hk : key4 am a = key4 am y) by (eapply write_key4_ID; by left).
        rewrite (Hsame4 y Hy (eq_sym Hk)) in Hw. unfold balance_write in Hw.
        rewrite Hi, E in Hw. congruence.
  - destruct (ParseFloat (AvailableBalance a) 32) as [bal [err|]] eqn:E.
    + apply foldl_write_frame. intros y k' v Hy Hw ->.
      assert (Hk : key4 am a = key4 am y) by (eapply write_key4_ID; by right).
      rewrite (Hsame4 y Hy (eq_sym Hk)) in Hw. unfold available_write in Hw.
      by rewrite Hi, E in Hw.
    + rewrite lookup_foldl_write.
      rewrite (last_write_unique _ _ _ a bal); [done|done|..].
      * unfold available_write. by rewrite Hi, E.
      * intros y v' Hy Hw.
        assert (Hk : key4 am a = key4 am y) by (eapply write_key4_ID; by right).
        rewrite (Hsame4 y Hy (eq_sym Hk)) in Hw. unfold available_write in Hw.
        rewrite Hi, E in Hw. congruence.
Qed.

End ExporterMore.

(** ** More on credential resolution *)

Ltac unfold_run :=
  unfold main.Fatal, main.when, main.log_, main.lift, main.gets, main.panic,
    main.set_accessUrl, main.set_updateInterval, main.set_k8sClient,
    main.set_client, main.set_accountMappings, emit,
    mbind, mret, main.M_bind, main.M_ret, main.m_bind, main.m_ret,
    IO_bind, IO_ret, io_bind, io_ret in *.

Section ResolutionMore.
Context `{GoLib} `{SimplefinPkg simplefin.Accounts}.
Import main config.

Lemma read_volatile_file_outcome fl st :
  ∃ o st', read_volatile_file fl st = (o, st') ∧ (o = Return tt ∨ o = Exit 1) ∧
           k8sClient st' = k8sClient st ∧ client st' = client st.
Proof.
  destruct st as [????? [e sec fs tr]].
  unfold read_volatile_file. unfold_run.
  destruct (nonempty (accessUrlVolatileFile fl)); simpl; [|eauto 10].
  destruct (ReadAndDeleteAccessURLFile _ _) as [[u [err|]] w']; simpl; eauto 10.
Qed.

Lemma load_mappings_outcome fl st :
  ∃ o st', load_mappings fl st = (o, st') ∧
           (o = Exit 1 ∨ (o = Return tt ∧ is_Some (accountMappings st'))) ∧
           client st' = client st ∧ updateInterval st' = updateInterval st.
Proof.
  destruct st as [????? [e sec fs tr]].
  unfold load_mappings, LoadAccountMappings, os.ReadFile. unfold_run.
  repeat (simpl; case_match; simplify_eq);
    do 2 eexists; (split; [reflexivity|]); simpl; eauto.
Qed.


Lemma make_client_outcome fl st :
  (store_configured fl = true → k8sClient st = true) →
  ∃ o st', make_client fl st = (o, st') ∧
           (o = Exit 1 ∨ (o = Return tt ∧ client_ready fl st')).
Proof.
  intros Hk.
  destruct st as [a ui k c am [e sec fs tr]]. simpl in Hk.
  unfold make_client, createClientAndGetAccessUrl, saveAccessUrlToSecret,
    newClient, http_Do, with_k8sClient, k8s.Get, k8s.Update, client_ready.
  fold (store_configured fl).
  destruct (store_configured fl) eqn:Hs.
  - destruct (store_configured_true fl Hs) as [Hn Hns]. rewrite Hn, Hns.
    rewrite (Hk eq_refl). clear Hk. unfold_run.
    repeat (simpl in *; case_match; simplify_eq);
      do 2 eexists; (split; [reflexivity|]); simpl;
      first [by left | right; split; [reflexivity|]; do 3 eexists; eauto].
  - clear Hk. unfold_run.
    repeat (simpl in *; case_match; simplify_eq);
      do 2 eexists; (split; [reflexivity|]); simpl;
      first [by left | right; split; [reflexivity|]; do 3 eexists; eauto].
Qed.


(** X9: started on any world with any command line, [parseConfig] either
    returns or exits with status 1; it never runs into a nil Kubernetes
    client or a nil mappings pointer. When it returns, the update interval
    is the parsed [-updateInterval], the client is one that
    [NewSimplefinClient] built without error, and the account mappings are
    loaded. *)
Theorem parseConfig_returns_or_exits (fl : Flags) (w : World) :
  let r := parseConfig fl (start w) in
  r.1 = Exit 1 ∨
  (r.1 = Return tt ∧ client_ready fl r.2 ∧ is_Some (accountMappings r.2)).
Proof.
  cbn zeta. unfold parseConfig.
  rewrite (bind_Return _ _ _ _ _ (parse_flags_run fl (start w))).
  set (s1 := emitted _ _).
  destruct (read_secret_outcome fl s1) as [(s2 & Hrs)|(s2 & Hrs)];
    [|left; by rewrite (bind_Exit _ _ _ _ _ Hrs)].
  rewrite (bind_Return _ _ _ _ _ Hrs).
  destruct (read_volatile_file_outcome fl s2) as (o3 & s3 & Hvf & Ho3 & Hk3 & _).
  destruct Ho3 as [-> | ->]; [|left; by rewrite (bind_Exit _ _ _ _ _ Hvf)].
  rewrite (bind_Return _ _ _ _ _ Hvf).
  destruct (make_client_outcome fl s3) as (o4 & s4 & Hmc & Ho4).
  { intros Hs. rewrite Hk3. by eapply read_secret_k8sClient. }
  destruct Ho4 as [-> | [-> Hready]]; [left; by rewrite (bind_Exit _ _ _ _ _ Hmc)|].
  rewrite (bind_Return _ _ _ _ _ Hmc).
  destruct (load_mappings_outcome fl s4) as (o5 & s5 & Hlm & Ho5 & Hc5 & Hu5).
  rewrite Hlm. simpl.
  destruct Ho5 as [-> | [-> Ham]]; [by left|]. right.
  split; [done|]. split; [|done].
  destruct Hready as (d & u & c & Hd & Hui & Hn & Hc).
  exists d, u, c. by rewrite Hc5, Hu5.
Qed.

Lemma forallb_weaken {A} (p q : A → bool) l :
  (∀ x, p x = true → q x = true) → forallb p l = true → forallb q l = true.
Proof.
  intros Hpq. induction l as [|x l IH]; [done|]. simpl.
  intros [Hx Hl]%andb_prop. by rewrite (Hpq x Hx), IH.
Qed.


Lemma streq_empty_false s : s ≠ "" → streq s "" = false.
Proof. intros. by apply String.eqb_neq. Qed.

Lemma make_client_with_url fl st :
  accessUrl st ≠ "" →
  ∃ o evs,
    make_client fl st = (o, (make_client fl st).2) ∧ (o = Return tt ∨ o = Exit 1) ∧
    world (make_client fl st).2 = world (emitted st evs) ∧
    forallb (λ e, is_log e || is_new_client e) evs = true ∧
    (setupToken fl ≠ "" → ignoring_token ∈ evs) ∧
    match ParseDuration (duration fl) with
    | (_, None) => List.filter is_new_client evs = [EvNewSimplefinClient (accessUrl st)]
    | (_, Some err) =>
        evs = (if nonempty (setupToken fl) then [ignoring_token] else []) ++
              [fatal_entry (Some err) "error parsing duration"]
    end.
Proof.
  intros Ha. destruct st as [a ui k c am [e sec fs tr]]. simpl in Ha.
  unfold make_client, newClient, emitted, ignoring_token, fatal_entry. unfold_run.
  simpl. rewrite (nonempty_true _ Ha), (streq_empty_false _ Ha). simpl.
  destruct (nonempty (setupToken fl)) eqn:Ht;
    destruct (ParseDuration (duration fl)) as [d [err|]]; simpl;
    try destruct (NewSimplefinClient a) as [c' [err'|]]; simpl;
    eexists _, _; (split; [reflexivity|]); (split; [by auto|]);
    rewrite <- ?app_assoc; (split; [reflexivity|]); simpl;
    (split; [done|]); (split; [|done]); intros Hne;
    try (by left); try (by apply nonempty_true in Hne; congruence).
Qed.

Lemma run_with_url fl w st1 :
  sources fl (start w) = (Return tt, st1) → accessUrl st1 ≠ "" →
  let st2 := (parseConfig fl (start w)).2 in
  ∃ evs evs',
    trace (world st2) = trace (world st1) ++ evs ++ evs' ∧
    secrets (world st2) = secrets (world st1) ∧
    forallb (λ e, is_log e || is_new_client e) evs = true ∧
    forallb ok_load evs' = true ∧
    (setupToken fl ≠ "" → ignoring_token ∈ evs) ∧
    (∀ d, ParseDuration (duration fl) = (d, None) →
          List.filter is_new_client evs = [EvNewSimplefinClient (accessUrl st1)]).
Proof.
  intros Hsrc Ha st2.
  destruct (make_client_with_url fl st1 Ha) as (o & evs & Hmc & Ho & Hw & Hok & Hwarn & Hd).
  destruct (parseConfig_after_client fl w st1 _ _ Hsrc Hmc Ho)
    as (_ & Hs2 & _ & evs' & Htr & Hev').
  fold st2 in Hs2, Htr. rewrite Hw in Hs2, Htr. simpl in Hs2, Htr.
  exists evs, evs'. rewrite <- app_assoc in Htr. repeat split; try done.
  intros d Hdur. by rewrite Hdur in Hd.
Qed.

(** X10: once the secret, the volatile file or [-accessUrl] has given an
    access URL, a setup token that is supplied as well is not exchanged:
    the run records no POST and no update of the secret, the secrets stay
    as they were, the warning that the token is ignored is logged, and when
    the interval parses the one client is built from the access URL. *)
Theorem known_url_skips_claim (fl : Flags) (w : World) (st1 : State) :
  sources fl (start w) = (Return tt, st1) → accessUrl st1 ≠ "" →
  let st2 := (parseConfig fl (start w)).2 in
  existsb is_http_post (trace (world st2)) = false ∧
  existsb is_update (trace (world st2)) = false ∧
  secrets (world st2) = secrets w ∧
  (setupToken fl ≠ "" → ignoring_token ∈ trace (world st2)) ∧
  (∀ d, ParseDuration (duration fl) = (d, None) →
        List.filter is_new_client (trace (world st2)) =
          [EvNewSimplefinClient (accessUrl st1)]).
Proof.
  intros Hsrc Ha st2.
  destruct (sources_frame fl w) as (_ & Hsec & Hev).
  rewrite Hsrc in Hsec, Hev. simpl in Hsec, Hev.
  destruct (run_with_url fl w st1 Hsrc Ha)
    as (evs & evs' & Htr & Hs2 & Hok & Hev' & Hwarn & Hd).
  fold st2 in Htr, Hs2.
  assert (Hall : forallb (λ e, negb (is_http_post e || is_update e))
                   (trace (world st2)) = true).
  { rewrite Htr, !forallb_app. repeat (apply andb_true_intro; split).
    - eapply forallb_weaken; [|exact Hev]. by intros [].
    - eapply forallb_weaken; [|exact Hok]. by intros [].
    - eapply forallb_weaken; [|exact Hev']. by intros []. }
  repeat split.
  - eapply forallb_existsb_false; [|exact Hall]. by intros [].
  - eapply forallb_existsb_false; [|exact Hall]. by intros [].
  - by rewrite Hs2.
  - intros Ht. rewrite Htr. apply elem_of_app. right. apply elem_of_app. left. auto.
  - intros d Hdur. rewrite Htr, !List.filter_app, (Hd d Hdur).
    rewrite (filter_none _ is_new_client _ (λ e He, proj1 (sources_events e He)) Hev).
    by rewrite (filter_none _ is_new_client _ (λ e He, proj1 (load_events e He)) Hev').
Qed.

(** *** Writing the secret and reading it back *)


(** X11: an access URL that [saveAccessUrlToSecret] has stored without
    error is what [getAccessUrlFromSecret] returns next, provided it starts
    with [http://] or [https://]; a stored value without such a prefix is
    read back as the empty string. *)
Theorem saved_url_is_read_back (fl : Flags) (st : State) (url : string) :
  store_configured fl = true → k8sClient st = true →
  (saveAccessUrlToSecret fl url st).1 = Return None →
  let st' := (saveAccessUrlToSecret fl url st).2 in
  (getAccessUrlFromSecret fl st').1 =
    Return (if HasPrefix url "http://" || HasPrefix url "https://" then url else "",
            None).
Proof.
  intros Hs Hk Hret st'. subst st'.
  destruct (saveAccessUrlToSecret_run fl st url Hs Hk) as (saveErr & evs & Hsave & _ & Hiff).
  rewrite Hsave in Hret |- *. simpl in Hret. injection Hret as ->.
  destruct (proj1 Hiff eq_refl) as (Hg & Hu & [data Hl]).
  destruct (store_configured_true fl Hs) as [Hn Hns].
  destruct st as [????? [e sec fs tr]]. simpl in *. subst.
  unfold getAccessUrlFromSecret, with_k8sClient, k8s.Get, saved_secrets.
  rewrite Hn, Hns. unfold_run. simpl. rewrite Hg, Hu, Hl. simpl.
  rewrite lookup_insert_eq. simpl. rewrite lookup_insert_eq.
  by destruct (HasPrefix url "http://" || HasPrefix url "https://").
Qed.

(** X12: [saveAccessUrlToSecret] changes at most the field [access_url] of
    the one configured secret. It leaves the files and every other secret
    alone, never creates a secret that does not exist, and when it returns
    no error the secret holds the URL under [access_url] with all its other
    fields as before. *)
Theorem save_touches_one_field (fl : Flags) (st : State) (url : string) :
  store_configured fl = true → k8sClient st = true →
  let r := saveAccessUrlToSecret fl url st in
  let key := (secretNamespace fl, secretName fl) in
  files (world r.2) = files (world st) ∧
  (∀ key', key' ≠ key → secrets (world r.2) !! key' = secrets (world st) !! key') ∧
  (secrets (world st) !! key = None →
   secrets (world r.2) !! key = None ∧ ∃ err, r.1 = Return (Some err)) ∧
  (∀ data, secrets (world st) !! key = Some data →
     (r.1 ≠ Return None ∧ secrets (world r.2) !! key = Some data) ∨
     (r.1 = Return None ∧
      ∃ fields, secrets (world r.2) !! key = Some (Some fields) ∧
                fields !! "access_url" = Some url ∧
                ∀ k, k ≠ "access_url" → fields !! k = default ∅ data !! k)).
Proof.
  intros Hs Hk r key. subst r.
  destruct (saveAccessUrlToSecret_run fl st url Hs Hk) as (saveErr & evs & Hsave & _ & Hiff).
  rewrite Hsave. simpl. unfold saved_secrets. fold key.
  assert (Herr : (secret_get_fault (env (world st)) = None ∧
                  secret_update_fault (env (world st)) = None ∧
                  is_Some (secrets (world st) !! key) → False) →
                 ∃ err, saveErr = Some err).
  { intros Hno. destruct saveErr as [err|]; [by eexists|].
    destruct Hno. by apply Hiff. }
  clear Hsave.
  destruct (secret_get_fault (env (world st))) as [e1|].
  { destruct Herr as [err ->]; [by intros (? & _)|].
    split; [done|]. split; [done|]. split.
    - intros ?. split; [done|]. by eexists.
    - intros data Hl. left. done. }
  destruct (secret_update_fault (env (world st))) as [e2|].
  { destruct Herr as [err ->]; [by intros (_ & ? & _)|].
    split; [done|]. split; [done|]. split.
    - intros ?. split; [done|]. by eexists.
    - intros data Hl. left. done. }
  destruct (secrets (world st) !! key) as [data|] eqn:Hl.
  - assert (saveErr = None) as -> by (apply Hiff; repeat split; try done; by eexists).
    split; [done|]. split; [|split; [done|]].
    + intros key' Hne. by rewrite lookup_insert_ne.
    + intros data' [= <-]. right. split; [done|].
      eexists. split; [apply lookup_insert_eq|]. split; [apply lookup_insert_eq|].
      intros k Hne. by rewrite lookup_insert_ne.
  - destruct Herr as [err ->]; [by intros (_ & _ & [? ?])|].
    split; [done|]. split; [done|]. split; [|done].
    intros _. split; [done|]. by eexists.
Qed.

Lemma sources_inv fl w st1 :
  sources fl (start w) = (Return tt, st1) →
  ∃ s2, read_secret fl (emitted (with_accessUrl (start w) (accessUrl_flag fl))
                          (banner fl)) = (Return tt, s2) ∧
        read_volatile_file fl s2 = (Return tt, st1).
Proof.
  intros Hsrc. unfold sources in Hsrc.
  rewrite (bind_Return _ _ _ _ _ (parse_flags_run fl (start w))) in Hsrc.
  apply bind_Return_inv in Hsrc as ([] & s2 & Hrs & Hvf). eauto.
Qed.



(** *** Failures before a client exists *)

(** X14: an [-updateInterval] that does not parse is fatal as soon as a
    credential source exists: [parseConfig] exits with status 1 on the
    record "error parsing duration", having made no POST, built no client
    and updated no secret. The interval is only looked at after the
    volatile file, so a configured file has already been removed by
    then. *)
Theorem bad_interval_is_fatal (fl : Flags) (w : World) (st1 : State)
    (d : Z) (err : error) :
  sources fl (start w) = (Return tt, st1) →
  accessUrl st1 ≠ "" ∨ setupToken fl ≠ "" →
  ParseDuration (duration fl) = (d, Some err) →
  ∃ st2,
    parseConfig fl (start w) = (Exit 1, st2) ∧
    last (trace (world st2)) = Some (fatal_entry (Some err) "error parsing duration") ∧
    existsb (λ e, is_http_post e || is_new_client e || is_update e)
      (trace (world st2)) = false ∧
    (accessUrlVolatileFile fl ≠ "" →
     files (world st2) !! accessUrlVolatileFile fl = None).
Proof.
  intros Hsrc Hany Hd.
  destruct (sources_frame fl w) as (_ & _ & Hev).
  rewrite Hsrc in Hev. cbn [snd] in Hev.
  assert (Hmc : ∃ evs, make_client fl st1 =
                  (Exit 1, emitted st1 (evs ++ [fatal_entry (Some err)
                                                  "error parsing duration"])) ∧
                forallb is_log evs = true).
  { destruct st1 as [a ui k c am [e sec fs tr]]. simpl in Hany.
    unfold make_client, emitted, fatal_entry. unfold_run. simpl. rewrite Hd.
    unfold nonempty.
    destruct (streq a "") eqn:Ea, (streq (setupToken fl) "") eqn:Et; simpl.
    - apply streq_true in Ea, Et. by destruct Hany.
    - exists []. split; [reflexivity|done].
    - exists []. split; [reflexivity|done].
    - eexists [_]. rewrite <- app_assoc. split; [reflexivity|done]. }
  destruct Hmc as (evs & Hmc & Hlog).
  eexists. split; [|split; [|split]].
  - by rewrite parseConfig_sources, (bind_Return _ _ _ _ _ Hsrc),
      (bind_Exit _ _ _ _ _ Hmc).
  - simpl. by rewrite app_assoc, last_snoc.
  - simpl. apply (forallb_existsb_false
                    (λ e, is_log e || is_secret_get e || is_file_op e));
      [by intros []|].
    rewrite !forallb_app, Hev. simpl. rewrite andb_true_r.
    eapply forallb_weaken; [|exact Hlog]. by intros [].
  - intros Hp. simpl. destruct (sources_inv fl w st1 Hsrc) as (s2 & _ & Hvf).
    by eapply read_volatile_file_Return.
Qed.


Lemma token_path_fatal fl st d r evs :
  accessUrl st = "" → setupToken fl ≠ "" →
  ParseDuration (duration fl) = (d, None) →
  createClientAndGetAccessUrl (setupToken fl) (with_updateInterval st d) =
    (Return ("", Some r), emitted (with_updateInterval st d) evs) →
  make_client fl st =
    (Exit 1, emitted (with_updateInterval st d) (evs ++ [claim_fatal r])).
Proof.
  intros Ha Ht Hd Hc. rewrite (make_client_token fl st d) by done.
  rewrite run_bind, run_bind, Hc. unfold Fatal, claim_fatal, fatal_entry, emitted.
  unfold_run. simpl. by rewrite <- app_assoc.
Qed.

(** X15: when the setup token is to be exchanged, an undecodable token and
    a claim URL that [http.NewRequest] rejects are fatal before anything
    is sent, and a transport error and an unreadable response body are
    fatal after the one POST; the fatal record carries the cause, and in
    none of the four cases is the secret read again or updated. *)
Theorem token_exchange_failures (fl : Flags) (w : World) (st1 : State) (d : Z) :
  sources fl (start w) = (Return tt, st1) →
  accessUrl st1 = "" → setupToken fl ≠ "" →
  ParseDuration (duration fl) = (d, None) →
  let run := parseConfig fl (start w) in
  let ends_with evs := run.1 = Exit 1 ∧ trace (world run.2) = trace (world st1) ++ evs in
  (∀ x err, base64_DecodeString (setupToken fl) = (x, Some err) →
     ends_with [claim_fatal (Errorf "error decoding base64 setupToken: " err)]) ∧
  (∀ claimUrl, base64_DecodeString (setupToken fl) = (claimUrl, None) →
     (∀ err, new_request (env w) claimUrl = Some err →
        ends_with [claim_fatal (Errorf "error creating request: " err)]) ∧
     (new_request (env w) claimUrl = None →
        (∀ err, http_post (env w) claimUrl = DoError err →
           ends_with [EvHttpPost claimUrl;
                      claim_fatal (Errorf "error requesting access url: " err)]) ∧
        (∀ status x err, http_post (env w) claimUrl = DoResponse status (x, Some err) →
           ends_with [EvHttpPost claimUrl;
                      claim_fatal (Errorf "error getting access url: " err)]))).
Proof.
  intros Hsrc Ha Ht Hd run ends_with. subst run ends_with. cbv beta.
  destruct (sources_frame fl w) as (Henv & _ & _).
  rewrite Hsrc in Henv. cbn [snd] in Henv.
  assert (Hend : ∀ r evs,
            createClientAndGetAccessUrl (setupToken fl) (with_updateInterval st1 d) =
              (Return ("", Some r), emitted (with_updateInterval st1 d) evs) →
            (parseConfig fl (start w)).1 = Exit 1 ∧
            trace (world (parseConfig fl (start w)).2) =
              trace (world st1) ++ evs ++ [claim_fatal r]).
  { intros r evs Hc.
    rewrite parseConfig_sources, (bind_Return _ _ _ _ _ Hsrc),
      (bind_Exit _ _ _ _ _ (token_path_fatal fl st1 d r evs Ha Ht Hd Hc)). done. }
  assert (Hnil : ∀ st : State, emitted st [] = st) by apply emitted_nil.
  split; [|intros claimUrl Hb; split; [|intros Hq; split]].
  - intros x err Hb. apply (Hend _ []).
    unfold createClientAndGetAccessUrl. rewrite Hb, Hnil. reflexivity.
  - intros err Hq. apply (Hend _ []).
    unfold createClientAndGetAccessUrl. rewrite Hb, Hnil.
    unfold_run. simpl. by rewrite Henv, Hq.
  - intros err Hp. apply (Hend _ [EvHttpPost claimUrl]).
    destruct st1 as [????? [e sec fs tr]]. simpl in *. subst.
    unfold createClientAndGetAccessUrl, http_Do, emitted, with_updateInterval.
    rewrite Hb. unfold_run. simpl. rewrite Hq. simpl. by rewrite Hp.
  - intros status x err Hp. apply (Hend _ [EvHttpPost claimUrl]).
    destruct st1 as [????? [e sec fs tr]]. simpl in *. subst.
    unfold createClientAndGetAccessUrl, http_Do, emitted, with_updateInterval.
    rewrite Hb. unfold_run. simpl. rewrite Hq. simpl. by rewrite Hp.
Qed.

(** *** The store switched off, and a store that cannot be reached *)


Lemma store_off fl :
  secretName fl = "" ∨ secretNamespace fl = "" → store_configured fl = false.
Proof.
  unfold store_configured, nonempty. intros [-> | ->]; [done|].
  by rewrite andb_false_r.
Qed.

Lemma make_client_keeps_store_off fl :
  store_configured fl = false → keeps ok_no_store (make_client fl).
Proof.
  intros Hs. unfold make_client, createClientAndGetAccessUrl, newClient, http_Do.
  fold (store_configured fl). rewrite Hs. unfold when. frame.
Qed.

Lemma parseConfig_keeps_store_off fl :
  store_configured fl = false → keeps ok_no_store (parseConfig fl).
Proof.
  intros Hs. unfold parseConfig.
  apply keeps_bind;
    [eapply keeps_weaken; [|apply parse_flags_keeps]; by intros []|intros _].
  apply keeps_bind.
  { unfold read_secret. fold (store_configured fl). rewrite Hs. apply keeps_ret. }
  intros _. apply keeps_bind;
    [eapply keeps_weaken; [|apply read_volatile_file_keeps]; by intros []|intros _].
  apply keeps_bind; [by apply make_client_keeps_store_off|intros _].
  eapply keeps_weaken; [|apply load_mappings_keeps]. by intros [].
Qed.

(** X16: the store is used only when both [-secretName] and
    [-secretNamespace] are given. With either one empty, [parseConfig]
    makes no call on the Kubernetes API at all, neither a read nor an
    update, also when it exchanges a setup token, and the secrets stay as
    they were. *)
Theorem store_needs_name_and_namespace (fl : Flags) (w : World) :
  secretName fl = "" ∨ secretNamespace fl = "" →
  let st2 := (parseConfig fl (start w)).2 in
  existsb (λ e, is_secret_get e || is_update e) (trace (world st2)) = false ∧
  secrets (world st2) = secrets w.
Proof.
  intros Hs%store_off st2. split.
  - destruct (keeps_trace _ _ (start w) (parseConfig_keeps_store_off fl Hs))
      as (evs & Htr & Hev).
    fold st2 in Htr. rewrite Htr. simpl.
    eapply forallb_existsb_false; [|exact Hev].
    intros e He. unfold ok_no_store in He. by destruct (is_secret_get e || is_update e).
  - unfold st2.
    rewrite (keeps_secrets _ _ (start w) (parseConfig_keeps_store_off fl Hs)); [done|].
    by intros [].
Qed.

(** X17: when the store is configured and the in-cluster configuration or
    the Kubernetes client cannot be created, [parseConfig] exits with
    status 1 right away: the fatal record follows the debug banner, the
    secret is not read and the volatile file is neither read nor
    removed. *)
Theorem k8s_init_failure_is_fatal (fl : Flags) (w : World) (err : error) :
  store_configured fl = true →
  in_cluster_config (env w) = Some err ∨
  (in_cluster_config (env w) = None ∧ new_for_config (env w) = Some err) →
  ∃ st2 msg,
    parseConfig fl (start w) = (Exit 1, st2) ∧
    trace (world st2) =
      banner fl ++ [fatal_entry (Some msg) "failed to initialize kubernetes client"] ∧
    (msg = Errorf "failed to create in-cluster config: " err ∨
     msg = Errorf "failed to create kubernetes client: " err) ∧
    files (world st2) = files w ∧ secrets (world st2) = secrets w.
Proof.
  intros Hs Hfail. unfold parseConfig.
  rewrite (bind_Return _ _ _ _ _ (parse_flags_run fl (start w))).
  unfold read_secret. fold (store_configured fl). rewrite Hs.
  unfold initKubernetesClient, when, fatal_entry. unfold_run. simpl.
  destruct Hfail as [Hi|[Hi Hn]]; rewrite Hi; rewrite ?Hn; simpl;
    eexists _, _; (split; [reflexivity|]); simpl; repeat split; auto.
Qed.

End ResolutionMore.

(** ** The polling loop and [main] *)




Section Polling.
Context `{GoLib} `{SimplefinPkg simplefin.Accounts}.
Import simplefin config exporter main.

Lemma poll_step fl n i e st c :
  client st = Some c →
  ∃ e' evs,
    poll fl (S n) i e st = poll fl n (S i) e' (emitted st evs) ∧
    List.filter is_get_accounts evs = [EvGetAccounts] ∧
    List.filter is_sleep evs = [EvSleep (updateInterval st)] ∧
    forallb ok_poll evs = true ∧
    e' = match GetAccounts c i with
         | (_, Some _) => e
         | (accounts, None) => (Export e accounts).1.1
         end.
Proof.
  intros Hc. destruct st as [a ui k cl am [en sec fs tr]]. simpl in Hc. subst cl.
  cbn [poll]. unfold emitted. unfold_run. simpl.
  destruct (GetAccounts c i) as [accounts [err|]]; simpl.
  - rewrite <- !app_assoc. simpl.
    eexists _, _. split; [reflexivity|]. done.
  - destruct (Export e accounts) as [[e' logs] err'] eqn:Hex. simpl.
    assert (Hlogs : ∀ l : list LogEntry,
              List.filter is_get_accounts (map EvLog l) = [] ∧
              List.filter is_sleep (map EvLog l) = [] ∧
              forallb ok_poll (map EvLog l) = true).
    { induction l as [|x l (? & ? & ?)]; simpl; auto. }
    destruct (Hlogs logs) as (Hg & Hs & Hok).
    destruct (debug fl); simpl; rewrite <- !app_assoc; simpl;
      eexists _, _; (split; [reflexivity|]);
      simpl; rewrite !List.filter_app, ?forallb_app, Hg, Hs, Hok; done.
Qed.

Lemma poll_run fl n : ∀ i e st c,
  client st = Some c →
  ∃ evs,
    poll fl n i e st = (Return tt, emitted st evs) ∧
    length (List.filter is_get_accounts evs) = n ∧
    List.filter is_sleep evs = replicate n (EvSleep (updateInterval st)) ∧
    forallb ok_poll evs = true.
Proof.
  induction n as [|n IH]; intros i e st c Hc.
  - exists []. rewrite emitted_nil. done.
  - destruct (poll_step fl n i e st c Hc) as (e' & evs1 & Hstep & Hg1 & Hs1 & Hok1 & _).
    destruct (IH (S i) e' (emitted st evs1) c Hc) as (evs2 & Hrun & Hg2 & Hs2 & Hok2).
    exists (evs1 ++ evs2). rewrite Hstep, Hrun, emitted_app.
    rewrite !List.filter_app, length_app, forallb_app, Hg1, Hg2, Hs1, Hs2, Hok1, Hok2.
    done.
Qed.

(** X18: once a client exists the polling loop never ends the process:
    whatever the fetches return, also when every one of them fails, [n]
    rounds of it return after exactly [n] calls of [GetAccounts] and [n]
    sleeps of the update interval each, and besides log records and the
    debug print they record nothing else; a failed fetch only skips the
    export of its round. *)
Theorem poll_never_exits (fl : Flags) (n i : nat) (e : Exporter) (st : State)
    (c : SimplefinClient) :
  client st = Some c →
  ∃ evs,
    poll fl n i e st = (Return tt, emitted st evs) ∧
    length (List.filter is_get_accounts evs) = n ∧
    List.filter is_sleep evs = replicate n (EvSleep (updateInterval st)) ∧
    forallb ok_poll evs = true ∧
    (∀ x err, GetAccounts c i = (x, Some err) →
       poll fl (S n) i e st =
         poll fl n (S i) e
           (emitted st [EvLog (mkLog InfoLevel None "polling account data");
                        EvGetAccounts;
                        EvLog (mkLog ErrorLevel (Some err) "failed to fetch accounts");
                        EvLog (mkLog InfoLevel None
                                 ("done, took " +:+ took (env (world st)) i));
                        EvSleep (updateInterval st)])).
Proof.
  intros Hc. destruct (poll_run fl n i e st c Hc) as (evs & Hrun & Hg & Hs & Hok).
  exists evs. repeat split; try done.
  intros x err Hget. destruct st as [a ui k cl am [en sec fs tr]].
  simpl in Hc. subst cl. cbn [poll]. unfold emitted. unfold_run. simpl.
  rewrite Hget. simpl. by rewrite <- !app_assoc.
Qed.



End Polling.

(** ** The volatile file, and a start that fails *)


Section StartUp.
Context `{GoLib} `{SimplefinPkg simplefin.Accounts}.
Import config main.

(** X20: [ReadAndDeleteAccessURLFile] returns a URL only together with
    the removal of the file. It returns no error exactly when the file
    exists, can be read, parses as a URL and can be removed, and then the
    file is gone and the parsed URL returned; on every error it returns
    the empty string and leaves the files as they were, and the removal is
    not even attempted unless the content was read and parsed. Secrets are
    never touched. *)
Theorem ReadAndDelete_all_or_nothing (filepath : string) (w : World) :
  let r := ReadAndDeleteAccessURLFile filepath w in
  secrets r.2 = secrets w ∧
  (r.1.2 = None ↔
   ∃ f, files w !! filepath = Some f ∧ readable f = true ∧ removable f = true ∧
        (url_Parse_String (content f)).2 = None) ∧
  (r.1.2 = None →
   files r.2 = delete filepath (files w) ∧
   ∃ f, files w !! filepath = Some f ∧ r.1.1 = (url_Parse_String (content f)).1) ∧
  (r.1.2 ≠ None → r.1.1 = "" ∧ files r.2 = files w) ∧
  (existsb is_remove (drop (length (trace w)) (trace r.2)) = true ↔
   ∃ f, files w !! filepath = Some f ∧ readable f = true ∧
        (url_Parse_String (content f)).2 = None).
Proof.
  destruct w as [e sec fs tr]. cbn zeta.
  unfold ReadAndDeleteAccessURLFile, os.ReadFile, os.Remove. unfold_run. simpl.
  assert (Hd : ∀ l : list Event, drop (length tr) (tr ++ l) = l).
  { intros l. by rewrite drop_app_length. }
  destruct (fs !! filepath) as [f|] eqn:Hf; simpl.
  2:{ rewrite Hd. simpl. split_opt. }
  destruct (readable f) eqn:Hr; simpl.
  2:{ rewrite Hd. simpl. split_opt; congruence. }
  destruct (url_Parse_String (content f)) as [u [err|]] eqn:Hu; simpl.
  { rewrite Hd. simpl. split_opt; rewrite Hu in *; simpl in *; congruence. }
  rewrite Hf. destruct (removable f) eqn:Hrm; simpl; rewrite <- app_assoc, Hd; simpl.
  - split_opt; exists f; by rewrite Hu.
  - split_opt; try congruence; exists f; by rewrite Hu.
Qed.

Lemma make_client_keeps_before_serving fl :
  keeps ok_before_serving (make_client fl).
Proof.
  unfold make_client, createClientAndGetAccessUrl, saveAccessUrlToSecret,
    newClient, http_Do.
  frame.
Qed.

Lemma parseConfig_keeps_before_serving fl :
  keeps ok_before_serving (parseConfig fl).
Proof.
  unfold parseConfig.
  apply keeps_bind;
    [eapply keeps_weaken; [|apply parse_flags_keeps]; by intros []|intros _].
  apply keeps_bind;
    [eapply keeps_weaken; [|apply read_secret_keeps]; by intros []|intros _].
  apply keeps_bind;
    [eapply keeps_weaken; [|apply read_volatile_file_keeps]; by intros []|intros _].
  apply keeps_bind; [apply make_client_keeps_before_serving|intros _].
  eapply keeps_weaken; [|apply load_mappings_keeps]. by intros [].
Qed.

(** X21: a start that fails serves nothing. When [parseConfig] exits,
    [main] ends there with the same status and in the same state: the
    metrics listener is never started, no account data is fetched and the
    process does not sleep and retry. *)
Theorem main_stops_with_parseConfig (fl : Flags) (w : World) (n : nat)
    (code : Z) (st : State) :
  parseConfig fl (start w) = (Exit code, st) →
  main.main fl n (start w) = (Exit code, st) ∧
  existsb (λ e, is_listen e || is_get_accounts e || is_sleep e)
    (trace (world st)) = false.
Proof.
  intros Hpc. split.
  - unfold main.main. by rewrite (bind_Exit _ _ _ _ _ Hpc).
  - destruct (keeps_trace _ _ (start w) (parseConfig_keeps_before_serving fl))
      as (evs & Htr & Hev).
    rewrite Hpc in Htr. simpl in Htr. rewrite Htr.
    eapply forallb_existsb_false; [|exact Hev].
    intros e He. unfold ok_before_serving in He.
    by destruct (is_listen e || is_get_accounts e || is_sleep e).
Qed.

End StartUp.

(** ** Worked examples *)

Module examples.
Import simplefin config exporter main inputs.
#[local] Existing Instance sample.lib.
#[local] Existing Instance sample.client.

Example scenario_A1_A2 :
  let e := (Export e0 {| Accounts_ := [A1; A2] |}).1.1 in
  balances e !! ("bank.example", "Checking", "A1", "USD") = Some (201 # 2)%Q ∧
  availableBalances e !! ("bank.example", "Checking", "A1", "USD") = Some (90 # 1)%Q ∧
  last_updated e !! ("bank.example", "Checking", "A1") = Some (1700000000 # 1)%Q ∧
  size (balances e) = 1%nat ∧ size (availableBalances e) = 1%nat ∧
  size (last_updated e) = 1%nat.
Proof. vm_compute. done. Qed.

Lemma ignored_account_never_exported_witness :
  IsAccountIgnored (AccountMappings e0) "A2" = true ∧
  ∀ d n, last_updated
           (export_polls e0 [{| Accounts_ := [A1; A2] |}; {| Accounts_ := [A2; A3] |}])
           !! (d, n, "A2") = None.
Proof.
  split; [reflexivity|]. intros d n.
  apply (ignored_account_never_exported e0
           [{| Accounts_ := [A1; A2] |}; {| Accounts_ := [A2; A3] |}] "A2").
  reflexivity.
Defined.

Lemma unparseable_balance_isolated_witness :
  balances (export_account e0 A3).1 = ∅ ∧
  count_errors (export_account e0 A3).2 = 1%nat.
Proof.
  pose proof (unparseable_balance_isolated e0 A3 0%Q (250 # 1)%Q
                (sample.syntax_error "strconv.ParseFloat" "n/a")
                eq_refl eq_refl eq_refl) as (Hb & _ & _ & _ & Hc & _).
  split; [exact Hb|exact Hc].
Defined.

Lemma Export_returns_nil_witness :
  (Export e0 {| Accounts_ := [A4; A5] |}).2 = None ∧
  count_errors (Export e0 {| Accounts_ := [A4; A5] |}).1.2 = 2%nat.
Proof.
  destruct (Export_returns_nil e0 {| Accounts_ := [A4; A5] |}) as [_ Hall].
  destruct Hall as (Hn & _ & _ & Hc).
  - intros a Ha. apply list_elem_of_In in Ha.
    destruct Ha as [<-|[<-|[]]]; vm_compute; split; discriminate.
  - split; [exact Hn|exact Hc].
Defined.

(** *** Credential resolution on concrete worlds *)

Ltac by_vm := vm_compute; reflexivity.






Lemma unusable_secret_is_absent_witness :
  ∃ evs st1,
    (parse_flags (flags token "" "sf") ;; read_secret (flags token "" "sf"))
      (start w_bad_secret) = (Return tt, st1) ∧
    accessUrl st1 = accessUrl_flag (flags token "" "sf") ∧
    forallb (λ e, is_log e || is_secret_get e) evs = true.
Proof.
  destruct (unusable_secret_is_absent (flags token "" "sf") w_bad_secret)
    as (_ & evs & Hrun & Hev & Ha & _); [by_vm..| |].
  - eapply (field_invalid _ _ (Some {[ "access_url" := "error: claim failed" ]})
              "error: claim failed"); by_vm.
  - eexists evs, _. split; [exact Hrun|split; [exact Ha|exact Hev]].
Defined.

Lemma volatile_file_consumed_once_witness :
  let st' := (parseConfig (flags "" "/run/url" "") (start w_both)).2 in
  files (world st') !! accessUrlVolatileFile (flags "" "/run/url" "") = None ∧
  ∃ st'', parseConfig (flags "" "/run/url" "") (start (world st')) = (Exit 1, st'').
Proof.
  destruct (volatile_file_consumed_once (flags "" "/run/url" "") w_both
              ltac:(discriminate)) as [Honce _].
  destruct (Honce (parseConfig (flags "" "/run/url" "") (start w_both)).2)
    as (Hgone & st'' & Hrun & _); [by_vm|].
  split; [exact Hgone|]. exists st''. exact Hrun.
Defined.

Lemma no_credential_source_is_fatal_witness :
  ∃ st2, main.main (flags "" "" "") 3 (start w_nothing) = (Exit 1, st2) ∧
         existsb is_listen (trace (world st2)) = false.
Proof.
  destruct (no_credential_source_is_fatal (flags "" "" "") w_nothing 3)
    as (st2 & Hmain & _ & _ & Hl); [by_vm| |].
  - left. repeat split; by_vm.
  - exists st2. split; [exact Hmain|exact Hl].
Defined.

End examples.

(** ** Further worked examples *)

Module more_examples.
Import simplefin config exporter main inputs more_inputs.
#[local] Existing Instance sample.lib.
#[local] Existing Instance sample.client.

Ltac by_run := vm_compute; reflexivity.

Lemma GetAccountNameMapping_first_match_witness :
  GetAccountNameMapping renamed "A3" "Card 4411" = "Card" ∧
  GetAccountNameMapping renamed "A9" "Brokerage" = "Brokerage".
Proof.
  destruct (GetAccountNameMapping_first_match renamed "A3" "Card 4411") as [Hfirst _].
  destruct (GetAccountNameMapping_first_match renamed "A9" "Brokerage") as [_ Hnone].
  split.
  - apply (Hfirst [{| AccountID := "A1"; CustomName := "Checking" |}]
             {| AccountID := "A3"; CustomName := "Card" |}
             [{| AccountID := "A3"; CustomName := "Spare card" |}]);
      [reflexivity..|].
    intros m' Hm. apply list_elem_of_In in Hm. destruct Hm as [<-|[]]. discriminate.
  - apply Hnone. intros m Hm. apply list_elem_of_In in Hm.
    destruct Hm as [<-|[<-|[<-|[]]]]; discriminate.
Defined.

Lemma LoadAccountMappings_absent_witness :
  ∃ cfg, (LoadAccountMappings "/etc/mappings.json" w_nothing).1 = (Some cfg, None) ∧
         IsAccountIgnored cfg "A2" = false.
Proof.
  destruct (LoadAccountMappings_absent "/etc/mappings.json" w_nothing)
    as (cfg & Hr & _ & _ & Hc); [right; by_run|].
  exists cfg. split; [exact Hr|exact (proj2 (Hc "A2" ""))].
Defined.

(** A later snapshot without A1 leaves the series of A1 alone. *)
Lemma Export_other_accounts_witness :
  let e1 := (Export e0 {| Accounts_ := [A1; A3] |}).1.1 in
  let e2 := (Export e1 {| Accounts_ := [A3] |}).1.1 in
  balances e2 !! ("bank.example", "Checking", "A1", "USD") =
    balances e1 !! ("bank.example", "Checking", "A1", "USD").
Proof.
  intros e1 e2.
  destruct (Export_other_accounts e1 {| Accounts_ := [A3] |} "A1") as (Hb & _ & _).
  - intros a Ha. apply list_elem_of_In in Ha. destruct Ha as [<-|[]]. discriminate.
  - exact (Hb "bank.example" "Checking" "USD").
Defined.

Lemma Export_reflects_snapshot_witness :
  let e := (Export e0 {| Accounts_ := [A1; A3] |}).1.1 in
  last_updated e !! key3 (AccountMappings e0) A3
    = Some (float64_of_int64 (BalanceDate A3)) ∧
  balances e !! key4 (AccountMappings e0) A3 = balances e0 !! key4 (AccountMappings e0) A3.
Proof.
  destruct (Export_reflects_snapshot e0 {| Accounts_ := [A1; A3] |} A3)
    as (Hu & Hb & _).
  - apply (bool_decide_unpack _). by_run.
  - apply list_elem_of_In. simpl. auto.
  - reflexivity.
  - split; [exact Hu|exact Hb].
Defined.

(** An access URL on the command line and a setup token as well. *)
Lemma known_url_skips_claim_witness :
  let st2 := (parseConfig (flags_url token "https://given.example/x")
                (start w_nothing)).2 in
  existsb is_http_post (trace (world st2)) = false ∧
  ignoring_token ∈ trace (world st2) ∧
  List.filter is_new_client (trace (world st2)) =
    [EvNewSimplefinClient "https://given.example/x"].
Proof.
  destruct (known_url_skips_claim (flags_url token "https://given.example/x") w_nothing
              (sources (flags_url token "https://given.example/x") (start w_nothing)).2)
    as (Hp & _ & _ & Hw & Hc); [by_run|discriminate|].
  split; [exact Hp|split; [apply Hw; discriminate|]].
  apply (Hc 1800000000000). by_run.
Defined.

Lemma saved_url_is_read_back_witness :
  (getAccessUrlFromSecret (flags token "" "sf")
     (saveAccessUrlToSecret (flags token "" "sf") granted
        (with_k8sClient_set (start w_empty_secret))).2).1 =
    Return (if HasPrefix granted "http://" || HasPrefix granted "https://"
            then granted else "", None).
Proof.
  apply (saved_url_is_read_back (flags token "" "sf")
           (with_k8sClient_set (start w_empty_secret)) granted); by_run.
Defined.

Lemma save_touches_one_field_witness :
  let r := saveAccessUrlToSecret (flags token "" "sf") granted
             (with_k8sClient_set (start w_both)) in
  files (world r.2) = files (world (with_k8sClient_set (start w_both))) ∧
  ∀ key', key' ≠ ("ns", "sf") →
    secrets (world r.2) !! key' =
      secrets (world (with_k8sClient_set (start w_both))) !! key'.
Proof.
  destruct (save_touches_one_field (flags token "" "sf")
              (with_k8sClient_set (start w_both)) granted)
    as (Hf & Ho & _); [by_run|by_run|].
  split; [exact Hf|exact Ho].
Defined.


Lemma bad_interval_is_fatal_witness :
  ∃ st2,
    parseConfig (flags_interval "/run/url" "soon") (start w_both) = (Exit 1, st2) ∧
    files (world st2) !! "/run/url" = None.
Proof.
  destruct (bad_interval_is_fatal (flags_interval "/run/url" "soon") w_both
              (sources (flags_interval "/run/url" "soon") (start w_both)).2
              (sample.parse_duration "soon").1
              (default "" (sample.parse_duration "soon").2))
    as (st2 & Hrun & _ & _ & Hf); [by_run|left; discriminate|by_run|].
  exists st2. split; [exact Hrun|apply Hf; discriminate].
Defined.

Lemma token_exchange_failures_witness :
  (parseConfig (flags token "" "sf") (start w_unreachable)).1 = Exit 1.
Proof.
  destruct (token_exchange_failures (flags token "" "sf") w_unreachable
              (sources (flags token "" "sf") (start w_unreachable)).2
              3600000000000)
    as (_ & Hdec); [by_run|by_run|discriminate|by_run|].
  destruct (Hdec claim) as (_ & Hsent); [by_run|].
  destruct Hsent as (Herr & _); [by_run|].
  destruct (Herr "dial tcp: connection refused") as (Hexit & _); [by_run|].
  exact Hexit.
Defined.

(** A secret name without a store: the token is claimed, no secret is
    asked for. *)
Lemma store_needs_name_and_namespace_witness :
  let st2 := (parseConfig (flags token "" "") (start w_both)).2 in
  existsb (λ e, is_secret_get e || is_update e) (trace (world st2)) = false ∧
  secrets (world st2) = secrets w_both.
Proof.
  apply (store_needs_name_and_namespace (flags token "" "") w_both).
  left. reflexivity.
Defined.

Lemma k8s_init_failure_is_fatal_witness :
  ∃ st2,
    parseConfig (flags "" "/run/url" "sf") (start w_outside) = (Exit 1, st2) ∧
    files (world st2) = files w_outside.
Proof.
  destruct (k8s_init_failure_is_fatal (flags "" "/run/url" "sf") w_outside
              "unable to load in-cluster configuration")
    as (st2 & msg & Hrun & _ & _ & Hf & _); [by_run|left; by_run|].
  exists st2. split; [exact Hrun|exact Hf].
Defined.

Lemma poll_never_exits_witness :
  let st := (parseConfig (flags "" "/run/url" "") (start w_both)).2 in
  ∃ evs,
    poll (flags "" "/run/url" "") 3 0 e0 st = (Return tt, emitted st evs) ∧
    length (List.filter is_get_accounts evs) = 3%nat.
Proof.
  intros st.
  destruct (poll_never_exits (flags "" "/run/url" "") 3 0 e0 st
              ("https://file.example/b" : @SimplefinClient _ sample.client))
    as (evs & Hrun & Hn & _); [by_run|].
  exists evs. split; [exact Hrun|exact Hn].
Defined.


Lemma main_stops_with_parseConfig_witness :
  main.main (flags "" "" "") 3 (start w_nothing) =
    (Exit 1, (parseConfig (flags "" "" "") (start w_nothing)).2).
Proof.
  destruct (main_stops_with_parseConfig (flags "" "" "") w_nothing 3 1
              (parseConfig (flags "" "" "") (start w_nothing)).2)
    as (Hmain & _); [by_run|].
  exact Hmain.
Defined.

End more_examples.
